(** * The merge engine of the code-generation endpoint

    A shallow embedding of the two variants of [pages/api/generate.js]:

    - the by-language variant ([src/pages/api/generate.js]), module
      [ByLanguage];
    - the filename-aware variant ([src/unnamed/part_000]), module
      [ByFilename].

    Both are built from regular expressions.  The expressions are kept as
    data ([regex]) and run by a small backtracking matcher that follows
    the ECMAScript matching order (leftmost start, greedy and lazy
    quantifiers tried in priority order, ignore-case by canonical
    characters).  JavaScript strings are sequences of code units; the
    development covers the code units U+0000 .. U+00FF, one [ascii] each.

    The call to the generative model is an input of the handlers
    ([model_outcome]); the order of [Object.keys] is not modelled, the
    reported languages are a set.

    The handlers of [ByLanguage] and [ByFilename] take a request whose
    previous code is a text or missing.  [LanguageHandler] and
    [FilenameHandler] take any request: a body that may be missing, and
    properties and model contents of any kind ([received]), with the
    paths on which a call on a value that is no string raises. *)

From Stdlib Require Import Ascii String List Bool Arith NArith Lia.
From stdpp Require Import gmap strings list.

Abbreviation text := (list ascii).

(** ** Characters *)

Definition code_unit (c : ascii) : N := N_of_ascii c.

Definition between (lo hi : N) (c : ascii) : bool :=
  ((lo <=? code_unit c) && (code_unit c <=? hi))%N.

Definition nl : ascii := ascii_of_N 10.
Definition backtick : ascii := ascii_of_N 96.
Definition dollar : ascii := ascii_of_N 36.

(** The fence: three backticks. *)
Definition fence : text := [backtick; backtick; backtick].

(** [\w] : [A-Za-z0-9_]. *)
Definition is_word (c : ascii) : bool :=
  between 48 57 c || between 65 90 c || between 97 122 c || (code_unit c =? 95)%N.

(** [[\w-]]. *)
Definition is_word_or_dash (c : ascii) : bool :=
  is_word c || (code_unit c =? 45)%N.

(** Line terminators below U+0100: LF and CR. *)
Definition is_line_terminator (c : ascii) : bool :=
  (code_unit c =? 10)%N || (code_unit c =? 13)%N.

(** [\s] below U+0100: TAB, LF, VT, FF, CR, SPACE, NBSP. *)
Definition is_space (c : ascii) : bool :=
  between 9 13 c || (code_unit c =? 32)%N || (code_unit c =? 160)%N.

(** [.] without the [s] flag: anything but a line terminator. *)
Definition is_dot (c : ascii) : bool := negb (is_line_terminator c).

(** [[\s\S]]: any code unit. *)
Definition is_any (c : ascii) : bool := true.

(** Canonicalize of the ignore-case flag (no [u] flag): the upper-case
    mapping of a single code unit; below U+0100 these are a-z and the
    Latin-1 letters U+00E0 .. U+00FE but U+00F7. *)
Definition canonicalize (c : ascii) : ascii :=
  if between 97 122 c || (between 224 254 c && negb (code_unit c =? 247)%N)
  then ascii_of_N (code_unit c - 32) else c.

(** One code unit of [String.prototype.toLowerCase]. *)
Definition lower_char (c : ascii) : ascii :=
  if between 65 90 c || (between 192 222 c && negb (code_unit c =? 215)%N)
  then ascii_of_N (code_unit c + 32) else c.

Definition toLowerCase (s : text) : text := map lower_char s.

Definition ascii_eqb (a b : ascii) : bool := (code_unit a =? code_unit b)%N.

(** Comparison of a pattern character with an input character. *)
Definition char_matches (ignore_case : bool) (p c : ascii) : bool :=
  if ignore_case then ascii_eqb (canonicalize p) (canonicalize c)
  else ascii_eqb p c.

(** [String.prototype.trim]: white space and line terminators go, at both
    ends. *)
Fixpoint trim_start (s : text) : text :=
  match s with
  | c :: s' => if is_space c then trim_start s' else s
  | [] => []
  end.

Definition trim (s : text) : text := rev (trim_start (rev (trim_start s))).

(** Literals of the examples: a backslash followed by n is a line feed. *)
Fixpoint unescape (s : text) : text :=
  match s with
  | a :: ((b :: s'') as s') =>
      if ascii_eqb a (ascii_of_N 92) && ascii_eqb b (ascii_of_N 110)
      then nl :: unescape s''
      else a :: unescape s'
  | _ => s
  end.

Definition js (s : string) : text := unescape (list_ascii_of_string s).

(** ** Regular expressions *)

(** The fragment the source uses: runs of pattern characters, a class
    under [*], [+] or [*?], groups and sequences.  The classes of the
    source ([\w], [[\w-]], [\s], [.], [[\s\S]]) hold a character exactly
    when they hold its canonical form, so a class is the same with and
    without the ignore-case flag. *)
Inductive regex : Type :=
  | Chars (cs : text)                                  (* pattern characters *)
  | Rep (greedy : bool) (min : nat) (cls : ascii -> bool)  (* cls* cls+ cls*? *)
  | Group (r : regex)                                  (* ( r ) *)
  | Seq (r1 r2 : regex).

Section Matcher.
Context {R : Type}.
Variable ignore_case : bool.

(** A run of pattern characters against the head of the input; the text
    that matched is returned with the remainder. *)
Fixpoint match_chars (cs s : text) : option (text * text) :=
  match cs, s with
  | [], _ => Some ([], s)
  | p :: cs', c :: s' =>
      if char_matches ignore_case p c then
        match match_chars cs' s' with
        | Some (m, rest) => Some (c :: m, rest)
        | None => None
        end
      else None
  | _ :: _, [] => None
  end.

Section Quantifier.
Variable cls : ascii -> bool.
Variable min : nat.
Variable k : text -> text -> option R.

Definition stop_here (acc s : text) : option R :=
  if min <=? length acc then k acc s else None.

(** Greedy: one more character first, the continuation after. *)
Fixpoint rep_greedy (acc s : text) : option R :=
  match
    match s with
    | c :: s' => if cls c then rep_greedy (acc ++ [c]) s' else None
    | [] => None
    end
  with
  | Some r => Some r
  | None => stop_here acc s
  end.

(** Lazy: the continuation first, one more character after. *)
Fixpoint rep_lazy (acc s : text) : option R :=
  match stop_here acc s with
  | Some r => Some r
  | None =>
      match s with
      | c :: s' => if cls c then rep_lazy (acc ++ [c]) s' else None
      | [] => None
      end
  end.
End Quantifier.

(** [run r s k]: match [r] at the head of [s]; [k] receives the matched
    text, the captures of [r] and the remainder, and its failure makes
    [r] try its next alternative. *)
Fixpoint run (r : regex) (s : text)
    (k : text -> list text -> text -> option R) : option R :=
  match r with
  | Chars cs =>
      match match_chars cs s with
      | Some (m, rest) => k m [] rest
      | None => None
      end
  | Rep greedy min cls =>
      (if greedy then rep_greedy else rep_lazy)
        cls min (fun m rest => k m [] rest) [] s
  | Group r1 => run r1 s (fun m caps rest => k m (m :: caps) rest)
  | Seq r1 r2 =>
      run r1 s (fun m1 c1 s1 =>
        run r2 s1 (fun m2 c2 s2 => k (m1 ++ m2) (c1 ++ c2) s2))
  end.
End Matcher.

(** The match object: text before the match, [m[0]], the groups
    [m[1]], [m[2]], ..., and the text after the match. *)
Record match_result : Type := MatchResult {
  m_pre : text;
  m_all : text;
  m_groups : list text;
  m_post : text
}.

Definition match_here (ic : bool) (r : regex) (s : text)
    : option (text * list text * text) :=
  run ic r s (fun m caps rest => Some (m, caps, rest)).

Definition shift (c : ascii) (m : match_result) : match_result :=
  MatchResult (c :: m_pre m) (m_all m) (m_groups m) (m_post m).

(** Leftmost match: every start index in turn, the end of the input
    included. *)
Fixpoint search (ic : bool) (r : regex) (s : text) : option match_result :=
  match match_here ic r s with
  | Some (m, caps, rest) => Some (MatchResult [] m caps rest)
  | None =>
      match s with
      | c :: s' => option_map (shift c) (search ic r s')
      | [] => None
      end
  end.

Definition group (n : nat) (m : match_result) : text :=
  nth n (m_groups m) [].

(** The results of [while ((m = regex.exec(s)) !== null)] for a global
    expression, in order; [rest] is the input from [lastIndex] on, and
    every match is at least one character long. *)
Fixpoint exec_all (ic : bool) (r : regex) (fuel : nat) (rest : text)
    : list match_result :=
  match fuel with
  | 0 => []
  | S fuel' =>
      match search ic r rest with
      | Some m => m :: exec_all ic r fuel' (m_post m)
      | None => []
      end
  end.

(** GetSubstitution for an expression without groups: [$$], [$&], [$`]
    and [$'] are expanded, a dollar before anything else stands for
    itself. *)
Fixpoint get_substitution (matched pre post template : text) : text :=
  match template with
  | a :: ((b :: t'') as t') =>
      if ascii_eqb a dollar then
        if ascii_eqb b dollar then dollar :: get_substitution matched pre post t''
        else if ascii_eqb b (ascii_of_N 38) then matched ++ get_substitution matched pre post t''
        else if ascii_eqb b backtick then pre ++ get_substitution matched pre post t''
        else if ascii_eqb b (ascii_of_N 39) then post ++ get_substitution matched pre post t''
        else a :: get_substitution matched pre post t'
      else a :: get_substitution matched pre post t'
  | _ => template
  end.

(** [base.replace(regex, newBlock)] for a non-global [regex] without
    groups and a string [newBlock]. *)
Definition replace_first (ic : bool) (r : regex) (base newBlock : text) : text :=
  match search ic r base with
  | Some m =>
      m_pre m ++ get_substitution (m_all m) (m_pre m) (m_post m) newBlock
        ++ m_post m
  | None => base
  end.

(** [regex.test(base)] for a non-global [regex]. *)
Definition test (ic : bool) (r : regex) (base : text) : bool :=
  match search ic r base with Some _ => true | None => false end.

(** What a regular expression can match, without the order of the
    attempts: [matches ic r m caps] says that [r] matches the text [m]
    with the captures [caps]. *)
Fixpoint matches (ic : bool) (r : regex) (m : text) (caps : list text) : Prop :=
  match r with
  | Chars cs => Forall2 (fun p c => char_matches ic p c = true) cs m ∧ caps = []
  | Rep _ min cls => Forall (fun c => cls c = true) m ∧ min ≤ length m ∧ caps = []
  | Group r1 => ∃ caps', matches ic r1 m caps' ∧ caps = m :: caps'
  | Seq r1 r2 =>
      ∃ m1 m2 c1 c2, m = m1 ++ m2 ∧ caps = c1 ++ c2
        ∧ matches ic r1 m1 c1 ∧ matches ic r2 m2 c2
  end.

(** Texts that hold no fence, and texts a fence can follow without a
    fence starting earlier. *)
Fixpoint starts_with (p s : text) : bool :=
  match p, s with
  | [], _ => true
  | a :: p', b :: s' => ascii_eqb a b && starts_with p' s'
  | _ :: _, [] => false
  end.

Fixpoint has_fence (s : text) : bool :=
  starts_with fence s
  || match s with
     | _ :: s' => has_fence s'
     | [] => false
     end.

Definition ends_with_backtick (s : text) : bool :=
  match rev s with
  | c :: _ => ascii_eqb c backtick
  | [] => false
  end.

Definition fence_free (s : text) : bool := negb (has_fence s).

Definition closable (body : text) : bool :=
  fence_free body && negb (ends_with_backtick body).

(** An opening fence line of language [l], in any case, begins [s]. *)
Definition opens_at (l s : text) : bool :=
  match match_chars true (fence ++ l ++ [nl]) s with
  | Some _ => true
  | None => false
  end.

(** No opening fence line of language [l] begins inside [t], when [rest]
    follows [t]. *)
Fixpoint no_opening_in (l t rest : text) : bool :=
  match t with
  | [] => true
  | _ :: t' => negb (opens_at l (t ++ rest)) && no_opening_in l t' rest
  end.

(** A document laid out as fenced blocks with text in between: each
    entry is the text before a block, the language token of its opening
    fence line and its body. *)
Record fenced : Type := {
  f_before : text;
  f_lang : text;
  f_body : text
}.

Definition fenced_span (f : fenced) : text :=
  fence ++ f_lang f ++ [nl] ++ f_body f ++ fence.

Definition render (blocks : list fenced) (tail : text) : text :=
  fold_right (λ f acc, f_before f ++ fenced_span f ++ acc) tail blocks.

Definition well_formed (f : fenced) : bool :=
  fence_free (f_before f)
  && match f_lang f with [] => false | _ => forallb is_word (f_lang f) end
  && closable (f_body f).

(** ** Values *)

(** What a caller may pass where a string is expected. *)
Inductive js_value : Type :=
  | JUndefined
  | JNull
  | JBool (b : bool)
  | JNumber (n : Z)          (* integral numbers *)
  | JString (s : text)
  | JObject.                 (* objects, arrays, functions *)

Definition truthy (v : js_value) : bool :=
  match v with
  | JUndefined | JNull => false
  | JBool b => b
  | JNumber n => negb (n =? 0)%Z
  | JString s => match s with [] => false | _ => true end
  | JObject => true
  end.

(** [x.trim() === ""] *)
Definition is_blank (s : text) : bool :=
  match trim s with [] => true | _ => false end.

(** The single outbound call to the generative model, as seen by the
    handler: it raises, or it returns with or without a text content. *)
Inductive model_outcome : Type :=
  | ModelThrows
  | ModelReturns (content : option text).

Record request : Type := {
  method : string;
  prompt : js_value;
  previousCode : option text
}.

(** The separator of [merged += "\n\n" + ...]. *)
Definition blank_line : text := [nl; nl].

(** ** Plain objects used as maps *)

(** The property names [{}] inherits from [Object.prototype]; each of
    them reads as a truthy value. *)
Definition object_prototype_keys : list text :=
  map list_ascii_of_string
    ["constructor"; "__defineGetter__"; "__defineSetter__"; "hasOwnProperty";
     "__lookupGetter__"; "__lookupSetter__"; "isPrototypeOf";
     "propertyIsEnumerable"; "toString"; "valueOf"; "__proto__";
     "toLocaleString"]%string.

Definition proto_key : text := list_ascii_of_string "__proto__".

(** An object that only ever receives [obj[key] = true] is given by the
    set of its own keys.

    [!!obj[key]]: the own property, else the inherited one. *)
Definition get_truthy (obj : gset text) (key : text) : bool :=
  bool_decide (key ∈ obj) || bool_decide (key ∈ object_prototype_keys).

(** [obj[key] = true]: an own property is written, but for [__proto__],
    whose setter ignores a value that is no object. *)
Definition set_true (obj : gset text) (key : text) : gset text :=
  if decide (key = proto_key) then obj else {[key]} ∪ obj.

(** ** The expressions of the source *)

(** /```(\w+)\n([\s\S]*?)```/g *)
Definition block_regex : regex :=
  Seq (Chars fence)
   (Seq (Group (Rep true 1 is_word))
    (Seq (Chars [nl])
     (Seq (Group (Rep false 0 is_any))
          (Chars fence)))).

(** new RegExp("```" + lang + "\\n[\\s\\S]*?```", "i"), for a [lang] of
    word characters, which is what [extractCodeBlocks] delivers. *)
Definition lang_regex (lang : text) : regex :=
  Seq (Chars fence)
   (Seq (Chars lang)
    (Seq (Chars [nl])
     (Seq (Rep false 0 is_any)
          (Chars fence)))).

Definition file_colon : text := list_ascii_of_string "file:".

(** /file:\s*(.+)\n/i *)
Definition file_marker_regex : regex :=
  Seq (Chars file_colon)
   (Seq (Rep true 0 is_space)
    (Seq (Group (Rep true 1 is_dot))
         (Chars [nl]))).

Definition backslash : ascii := ascii_of_N 92.

(** The class of /[.*+?^${}()|[\]\\]/ . *)
Definition is_syntax_char (c : ascii) : bool :=
  existsb (ascii_eqb c) (list_ascii_of_string ".*+?^${}()|[]\").

(** filename.replace(/[.*+?^${}()|[\]\\]/g, "\\$&") *)
Definition escape_regexp (filename : text) : text :=
  flat_map (fun c => if is_syntax_char c then [backslash; c] else [c]) filename.

(** The pattern characters an escaped source stands for: a backslash
    makes the character after it literal. *)
Fixpoint pattern_chars (source : text) : text :=
  match source with
  | a :: ((b :: s'') as s') =>
      if ascii_eqb a backslash then b :: pattern_chars s''
      else a :: pattern_chars s'
  | _ => source
  end.

(** new RegExp("```[\\w-]+\\n[\\s\\S]*?file:\\s*" + escaped
               + "[\\s\\S]*?```", "i") *)
Definition filename_regex (filename : text) : regex :=
  Seq (Chars fence)
   (Seq (Rep true 1 is_word_or_dash)
    (Seq (Chars [nl])
     (Seq (Rep false 0 is_any)
      (Seq (Chars file_colon)
       (Seq (Rep true 0 is_space)
        (Seq (Chars (pattern_chars (escape_regexp filename)))
         (Seq (Rep false 0 is_any)
              (Chars fence)))))))).

(** ** The by-language variant: src/pages/api/generate.js *)

Module ByLanguage.

Record CodeBlock : Type := {
  lang : text;
  code : text;
  fullBlock : text
}.

Definition block_of (m : match_result) : CodeBlock :=
  {| lang := toLowerCase (group 0 m);
     code := group 1 m;
     fullBlock := m_all m |}.

(** [blocks.push] for every result of the [regex.exec] loop. *)
Definition extractCodeBlocks (markdown : js_value) : list CodeBlock :=
  match markdown with
  | JString s =>
      match s with
      | [] => []
      | _ => map block_of (exec_all false block_regex (S (length s)) s)
      end
  | _ => []
  end.

Definition replaceFirstCodeBlockByLang (base lang newBlock : text)
    : text * bool :=
  let regex := lang_regex lang in
  if test true regex base
  then (replace_first true regex base newBlock, true)
  else (base, false).

Record merge_state : Type := {
  merged : text;
  replacedLangs : gset text
}.

Definition newFullBlock (blk : CodeBlock) : text :=
  fence ++ lang blk ++ [nl] ++ code blk ++ [nl] ++ fence.

(** The fall-through end of the loop body. *)
Definition append_block (st : merge_state) (blk : CodeBlock) : merge_state :=
  {| merged := merged st ++ blank_line ++ newFullBlock blk;
     replacedLangs := set_true (replacedLangs st) (lang blk) |}.

(** One turn of [for (const blk of aiBlocks)]. *)
Definition merge_step (st : merge_state) (blk : CodeBlock) : merge_state :=
  if negb (get_truthy (replacedLangs st) (lang blk)) then
    let '(updated, replaced) :=
      replaceFirstCodeBlockByLang (merged st) (lang blk) (newFullBlock blk) in
    if replaced
    then {| merged := updated;
            replacedLangs := set_true (replacedLangs st) (lang blk) |}
    else append_block st blk
  else append_block st blk.

(** Whether a turn takes the [continue] branch, the in-place
    replacement. *)
Definition replaces (st : merge_state) (blk : CodeBlock) : bool :=
  negb (get_truthy (replacedLangs st) (lang blk))
  && snd (replaceFirstCodeBlockByLang (merged st) (lang blk) (newFullBlock blk)).

(** The branch of every turn of the loop, in order. *)
Fixpoint turns (st : merge_state) (blks : list CodeBlock) : list bool :=
  match blks with
  | [] => []
  | blk :: blks' => replaces st blk :: turns (merge_step st blk) blks'
  end.

Definition merge_loop (st : merge_state) (blks : list CodeBlock) : merge_state :=
  fold_left merge_step blks st.

(** The new blocks of language [l] that were put in place of a block. *)
Definition in_place (l : text) (st : merge_state) (blks : list CodeBlock)
    : list CodeBlock :=
  map fst
    (List.filter (λ p, snd p && bool_decide (lang (fst p) = l))
       (combine blks (turns st blks))).

Record ok_body : Type := {
  output : text;
  aiRaw : text;
  aiBlocksCount : nat;
  replacedLangs_keys : gset text     (* Object.keys(replacedLangs) *)
}.

(** From [extractCodeBlocks(fullOutput)] to the body of the reply. *)
Definition merge (previousCode fullOutput : text) : ok_body :=
  let aiBlocks := extractCodeBlocks (JString fullOutput) in
  let st := merge_loop {| merged := previousCode; replacedLangs := ∅ |} aiBlocks in
  let merged :=
    if 0 <? length aiBlocks then merged st
    else merged st ++ blank_line ++ fullOutput in
  {| output := merged;
     aiRaw := fullOutput;
     aiBlocksCount := length aiBlocks;
     replacedLangs_keys := replacedLangs st |}.

Inductive response : Type :=
  | Status405
  | Status400
  | Status500
  | Status200 (body : ok_body).

Definition handler (req : request) (outcome : model_outcome) : response :=
  if negb (String.eqb (method req) "POST") then Status405 else
  match prompt req with
  | JString (_ :: _) =>
      match outcome with
      | ModelThrows => Status500
      | ModelReturns content =>
          let fullOutput := default [] content in
          if is_blank fullOutput then Status500
          else Status200 (merge (default [] (previousCode req)) fullOutput)
      end
  | _ => Status400
  end.

End ByLanguage.

(** ** The filename-aware variant: src/unnamed/part_000 *)

Module ByFilename.

Record CodeBlock : Type := {
  lang : text;
  code : text;
  filename : option text;      (* [None] is null *)
  fullBlock : text
}.

Definition block_of (m : match_result) : CodeBlock :=
  let lang := toLowerCase (group 0 m) in
  let code := group 1 m in
  let fileMatch := search true file_marker_regex code in
  {| lang := lang;
     code := code;
     filename :=
       match fileMatch with
       | Some fm => Some (trim (group 0 fm))
       | None => None
       end;
     fullBlock := m_all m |}.

Definition extractCodeBlocks (markdown : js_value) : list CodeBlock :=
  match markdown with
  | JString s =>
      match s with
      | [] => []
      | _ => map block_of (exec_all false block_regex (S (length s)) s)
      end
  | _ => []
  end.

Definition replaceBlockByFilename (base : text) (filename : option text)
    (newBlock : text) : text * bool :=
  match filename with
  | None | Some [] => (base, false)
  | Some f =>
      let regex := filename_regex f in
      if test true regex base
      then (replace_first true regex base newBlock, true)
      else (base, false)
  end.

Definition newFullBlock (blk : CodeBlock) : text :=
  fence ++ lang blk ++ [nl] ++ code blk ++ [nl] ++ fence.

(** [if (blk.filename)] *)
Definition has_filename (blk : CodeBlock) : bool :=
  match filename blk with
  | Some (_ :: _) => true
  | _ => false
  end.

(** One turn of [for (const blk of aiBlocks)]. *)
Definition merge_step (merged : text) (blk : CodeBlock) : text :=
  let newFullBlock := newFullBlock blk in
  let '(merged1, replaced) :=
    if has_filename blk
    then replaceBlockByFilename merged (filename blk) newFullBlock
    else (merged, false) in
  if negb replaced then merged1 ++ blank_line ++ newFullBlock else merged1.

Definition merge_loop (merged : text) (blks : list CodeBlock) : text :=
  fold_left merge_step blks merged.

Record ok_body : Type := {
  output : text;
  aiRaw : text;
  aiBlocksCount : nat
}.

Definition merge (previousCode output : text) : ok_body :=
  let aiBlocks := extractCodeBlocks (JString output) in
  let merged := merge_loop previousCode aiBlocks in
  let merged :=
    if length aiBlocks =? 0 then merged ++ blank_line ++ output else merged in
  {| output := merged;
     aiRaw := output;
     aiBlocksCount := length aiBlocks |}.

Inductive response : Type :=
  | Status405
  | Status400
  | Status500
  | Status200 (body : ok_body).

Definition handler (req : request) (outcome : model_outcome) : response :=
  if negb (String.eqb (method req) "POST") then Status405 else
  if negb (truthy (prompt req)) then Status400 else
  match outcome with
  | ModelThrows => Status500
  | ModelReturns content =>
      let output := default [] content in
      if is_blank output then Status500
      else Status200 (merge (default [] (previousCode req)) output)
  end.

End ByFilename.

(** * The handlers on any request *)

(** A value as a handler can tell it apart: a property that is missing,
    a string, or any other value, of which a handler uses whether it is
    truthy and the string it converts to in a template, in [test] and
    before [+] ([None] when the conversion raises).  Request bodies and
    results of the model are plain data: a value that is no string has
    no method [trim] or [replace], so that calling one raises. *)
Inductive received : Type :=
  | Missing                                         (* undefined *)
  | Text (s : text)
  | Other (is_truthy : bool) (shown : option text).

Definition received_truthy (v : received) : bool :=
  match v with
  | Missing | Text [] => false
  | Text (_ :: _) => true
  | Other t _ => t
  end.

(** [v || ""] *)
Definition or_empty (v : received) : received :=
  if received_truthy v then v else Text [].

(** Whether [${v}] in a template yields a string. *)
Definition converts (v : received) : bool :=
  match v with
  | Other _ None => false
  | _ => true
  end.

(** The properties the handlers read of [req.body]. *)
Record body_fields : Type := {
  b_prompt : received;
  b_previousCode : received
}.

(** [req]: its method, and its body, [None] when that is undefined or
    null; a body of any other kind has the properties it has, and the
    others are missing. *)
Record any_request : Type := {
  r_method : string;
  r_body : option body_fields
}.

(** The call of the model together with the reading of the content of
    its first candidate: it raises, or it yields a value. *)
Inductive call_outcome : Type :=
  | CallThrows
  | CallReturns (content : received).

(** ** By language: src/pages/api/generate.js *)

Module LanguageHandler.

Definition handler (req : any_request) (outcome : call_outcome)
    : ByLanguage.response :=
  if negb (String.eqb (r_method req) "POST") then ByLanguage.Status405 else
  (* const body = req.body || {} *)
  let body :=
    default {| b_prompt := Missing; b_previousCode := Missing |} (r_body req) in
  let prompt := b_prompt body in
  let previousCode := or_empty (b_previousCode body) in
  match prompt with
  | Text (_ :: _) =>
      match previousCode with
      | Text previousCode =>
          match outcome with
          | CallThrows => ByLanguage.Status500
          | CallReturns content =>
              (* ... ?? "", and [!fullOutput] *)
              if negb (received_truthy content) then ByLanguage.Status500 else
              match content with
              | Text fullOutput =>
                  if is_blank fullOutput then ByLanguage.Status500
                  else ByLanguage.Status200
                         (ByLanguage.merge previousCode fullOutput)
              | _ => ByLanguage.Status500     (* [trim] is no function *)
              end
          end
      | _ => ByLanguage.Status500    (* [previousCode.trim] is no function *)
      end
  | _ => ByLanguage.Status400
  end.

End LanguageHandler.

(** ** By filename: src/unnamed/part_000 *)

Module FilenameHandler.

(** [merged]: a string, or still a previous code that is no string,
    with the string it converts to. *)
Inductive merged_value : Type :=
  | IsText (t : text)
  | NoText (shown : option text).

(** [previousCode || ""] *)
Definition start (previousCode : received) : merged_value :=
  match previousCode with
  | Text s => IsText s
  | Other true shown => NoText shown
  | Missing | Other false _ => IsText []
  end.

(** [replaceBlockByFilename(merged, blk.filename, newFullBlock)];
    [None] when it raises. *)
Definition replaceBlockByFilename (base : merged_value)
    (filename : option text) (newBlock : text)
    : option (merged_value * bool) :=
  match base with
  | IsText t =>
      let '(updated, replaced) :=
        ByFilename.replaceBlockByFilename t filename newBlock in
      Some (IsText updated, replaced)
  | NoText shown =>
      match filename with
      | None | Some [] => Some (base, false)
      | Some f =>
          match shown with
          | None => None             (* [regex.test(base)] converts [base] *)
          | Some t =>
              if test true (filename_regex f) t
              then None              (* [base.replace] is no function *)
              else Some (base, false)
          end
      end
  end.

(** [merged += s] *)
Definition append (merged : merged_value) (s : text) : option merged_value :=
  match merged with
  | IsText t => Some (IsText (t ++ s))
  | NoText (Some t) => Some (IsText (t ++ s))
  | NoText None => None
  end.

(** One turn of [for (const blk of aiBlocks)]. *)
Definition merge_step (merged : merged_value) (blk : ByFilename.CodeBlock)
    : option merged_value :=
  let newFullBlock := ByFilename.newFullBlock blk in
  match
    (if ByFilename.has_filename blk
     then replaceBlockByFilename merged (ByFilename.filename blk) newFullBlock
     else Some (merged, false))
  with
  | None => None
  | Some (merged1, replaced) =>
      if negb replaced then append merged1 (blank_line ++ newFullBlock)
      else Some merged1
  end.

Fixpoint merge_loop (merged : merged_value) (blks : list ByFilename.CodeBlock)
    : option merged_value :=
  match blks with
  | [] => Some merged
  | blk :: blks' =>
      match merge_step merged blk with
      | None => None
      | Some merged1 => merge_loop merged1 blks'
      end
  end.

Record ok_body : Type := {
  output : merged_value;
  aiRaw : text;
  aiBlocksCount : nat
}.

(** From [extractCodeBlocks(output)] to the body of the reply; [None]
    when a step raises. *)
Definition merge (previousCode : merged_value) (output : text)
    : option ok_body :=
  let aiBlocks := ByFilename.extractCodeBlocks (JString output) in
  match merge_loop previousCode aiBlocks with
  | None => None
  | Some merged =>
      match
        (if length aiBlocks =? 0 then append merged (blank_line ++ output)
         else Some merged)
      with
      | None => None
      | Some merged1 =>
          Some {| output := merged1;
                  aiRaw := output;
                  aiBlocksCount := length aiBlocks |}
      end
  end.

Inductive response : Type :=
  | Status405
  | Status400
  | Status500
  | Status200 (body : ok_body).

(** Whether the first turn of the loop finds the filename of its block
    in the text [t]. *)
Definition first_block_found (t output : text) : bool :=
  match ByFilename.extractCodeBlocks (JString output) with
  | blk :: _ =>
      match ByFilename.filename blk with
      | Some (c :: f) => test true (filename_regex (c :: f)) t
      | _ => false
      end
  | [] => false
  end.

Definition handler (req : any_request) (outcome : call_outcome) : response :=
  if negb (String.eqb (r_method req) "POST") then Status405 else
  match r_body req with
  | None => Status500            (* destructuring undefined or null raises *)
  | Some body =>
      let prompt := b_prompt body in
      (* previousCode = "" by default *)
      let previousCode :=
        match b_previousCode body with
        | Missing => Text []
        | v => v
        end in
      if negb (received_truthy prompt) then Status400 else
      (* the template holds [${previousCode}], when that is truthy, and
         [${prompt}] *)
      if negb ((if received_truthy previousCode then converts previousCode
                else true) && converts prompt)
      then Status500 else
      match outcome with
      | CallThrows => Status500
      | CallReturns content =>
          match or_empty content with
          | Text output =>
              if is_blank output then Status500 else
              match merge (start previousCode) output with
              | Some body => Status200 body
              | None => Status500
              end
          | _ => Status500               (* [output.trim] is no function *)
          end
      end
  end.

End FilenameHandler.

(** * Properties *)

(** ** Characters *)

Lemma ascii_eqb_eq (a b : ascii) : ascii_eqb a b = true ↔ a = b.
Proof.
  unfold ascii_eqb, code_unit. rewrite N.eqb_eq. split; [|by intros ->].
  intros H. rewrite <- (ascii_N_embedding a), <- (ascii_N_embedding b).
  by rewrite H.
Qed.

Lemma ascii_eqb_refl (a : ascii) : ascii_eqb a a = true.
Proof. by apply ascii_eqb_eq. Qed.

Lemma ascii_eqb_neq (a b : ascii) : ascii_eqb a b = false ↔ a ≠ b.
Proof.
  rewrite <- ascii_eqb_eq. destruct (ascii_eqb a b); split; congruence.
Qed.

Lemma char_matches_exact (p c : ascii) : char_matches false p c = true ↔ p = c.
Proof. apply ascii_eqb_eq. Qed.

(** ** The matcher *)

Section MatcherFacts.
Context {R : Type}.
Variable ic : bool.

Lemma match_chars_sound (cs s m rest : text) :
  match_chars ic cs s = Some (m, rest) →
  s = m ++ rest ∧ Forall2 (λ p c, char_matches ic p c = true) cs m.
Proof.
  revert s m. induction cs as [|p cs IH]; intros s m H; simpl in H.
  - destruct s; simplify_eq; by split.
  - destruct s as [|c s]; [done|].
    destruct (char_matches ic p c) eqn:Hc; [|done].
    destruct (match_chars ic cs s) as [[m' r']|] eqn:Hm; [|done].
    simplify_eq. destruct (IH _ _ Hm) as [-> ?]. split; [done|].
    by constructor.
Qed.

Lemma match_chars_complete (cs m rest : text) :
  Forall2 (λ p c, char_matches ic p c = true) cs m →
  match_chars ic cs (m ++ rest) = Some (m, rest).
Proof.
  induction 1 as [|p c cs m Hc _ IH]; simpl.
  - by destruct rest.
  - by rewrite Hc, IH.
Qed.

Lemma match_chars_none (cs m rest : text) :
  match_chars ic cs (m ++ rest) = None →
  ¬ Forall2 (λ p c, char_matches ic p c = true) cs m.
Proof. intros H F. by rewrite (match_chars_complete _ _ _ F) in H. Qed.

Section QuantifierFacts.
Variable cls : ascii → bool.
Variable min : nat.
Variable k : text → text → option R.

Lemma rep_greedy_sound (s acc : text) (r : R) :
  rep_greedy cls min k acc s = Some r →
  ∃ a b, s = a ++ b ∧ Forall (λ c, cls c = true) a
         ∧ min ≤ length (acc ++ a) ∧ k (acc ++ a) b = Some r.
Proof.
  revert acc. induction s as [|c s IH]; intros acc H; simpl in H.
  - unfold stop_here in H. destruct (min <=? length acc) eqn:Hm; [|done].
    exists [], []. rewrite !app_nil_r. apply Nat.leb_le in Hm.
    by repeat split.
  - destruct (cls c) eqn:Hc.
    + destruct (rep_greedy cls min k (acc ++ [c]) s) as [r'|] eqn:Hg.
      * simplify_eq. destruct (IH _ Hg) as (a & b & -> & Ha & Hl & Hk).
        exists (c :: a), b. rewrite <- app_assoc in Hl, Hk.
        repeat split; try done. by constructor.
      * unfold stop_here in H.
        destruct (min <=? length acc) eqn:Hm; [|done].
        exists [], (c :: s). rewrite app_nil_r.
        apply Nat.leb_le in Hm. by repeat split.
    + unfold stop_here in H.
      destruct (min <=? length acc) eqn:Hm; [|done].
      exists [], (c :: s). rewrite app_nil_r.
      apply Nat.leb_le in Hm. by repeat split.
Qed.

Lemma rep_lazy_sound (s acc : text) (r : R) :
  rep_lazy cls min k acc s = Some r →
  ∃ a b, s = a ++ b ∧ Forall (λ c, cls c = true) a
         ∧ min ≤ length (acc ++ a) ∧ k (acc ++ a) b = Some r.
Proof.
  revert acc. induction s as [|c s IH]; intros acc H; simpl in H.
  - unfold stop_here in H. destruct (min <=? length acc) eqn:Hm.
    + destruct (k acc []) eqn:Hk; [|done]. simplify_eq.
      exists [], []. rewrite !app_nil_r. apply Nat.leb_le in Hm.
    by repeat split.
    + done.
  - destruct (stop_here min k acc (c :: s)) as [r'|] eqn:Hs.
    + simplify_eq. unfold stop_here in Hs.
      destruct (min <=? length acc) eqn:Hm; [|done].
      exists [], (c :: s). rewrite app_nil_r.
      apply Nat.leb_le in Hm. by repeat split.
    + destruct (cls c) eqn:Hc; [|done].
      destruct (IH _ H) as (a & b & -> & Ha & Hl & Hk).
      exists (c :: a), b. rewrite <- app_assoc in Hl, Hk.
      repeat split; try done. by constructor.
Qed.

Lemma stop_here_none (acc s : text) :
  stop_here min k acc s = None →
  min ≤ length acc → k acc s = None.
Proof.
  unfold stop_here. intros H Hm. apply Nat.leb_le in Hm.
  by rewrite Hm in H.
Qed.

Lemma rep_greedy_none (s acc : text) :
  rep_greedy cls min k acc s = None →
  ∀ a b, s = a ++ b → Forall (λ c, cls c = true) a →
         min ≤ length (acc ++ a) → k (acc ++ a) b = None.
Proof.
  revert acc. induction s as [|c s IH]; intros acc H a b Hs Ha Hl;
    simpl in H.
  - symmetry in Hs. apply app_eq_nil in Hs as [-> ->].
    rewrite app_nil_r in *. by apply stop_here_none.
  - destruct a as [|c' a]; simpl in Hs.
    + subst b. rewrite app_nil_r in *.
      destruct (cls c); [destruct (rep_greedy cls min k (acc ++ [c]) s)|];
        try done; by apply stop_here_none.
    + simplify_eq. inversion Ha as [|?? Hc Ha']; subst.
      rewrite Hc in H.
      destruct (rep_greedy cls min k (acc ++ [c']) (a ++ b)) eqn:Hg;
        [done|].
      replace (acc ++ c' :: a) with ((acc ++ [c']) ++ a)
        by (by rewrite <- app_assoc).
      eapply IH; eauto. by rewrite <- app_assoc.
Qed.

Lemma rep_lazy_none (s acc : text) :
  rep_lazy cls min k acc s = None →
  ∀ a b, s = a ++ b → Forall (λ c, cls c = true) a →
         min ≤ length (acc ++ a) → k (acc ++ a) b = None.
Proof.
  revert acc. induction s as [|c s IH]; intros acc H a b Hs Ha Hl;
    simpl in H.
  - symmetry in Hs. apply app_eq_nil in Hs as [-> ->].
    rewrite app_nil_r in *.
    destruct (stop_here min k acc []) eqn:Hst; [done|].
    by apply stop_here_none.
  - destruct (stop_here min k acc (c :: s)) eqn:Hst; [done|].
    destruct a as [|c' a]; simpl in Hs.
    + subst b. rewrite app_nil_r in *. by apply stop_here_none.
    + simplify_eq. inversion Ha as [|?? Hc Ha']; subst.
      rewrite Hc in H.
      replace (acc ++ c' :: a) with ((acc ++ [c']) ++ a)
        by (by rewrite <- app_assoc).
      eapply IH; eauto. by rewrite <- app_assoc.
Qed.

(** A greedy quantifier hands the longest run to its continuation
    first. *)
Lemma rep_greedy_longest (a b acc : text) (r : R) :
  Forall (λ c, cls c = true) a →
  min ≤ length (acc ++ a) →
  k (acc ++ a) b = Some r →
  match b with c :: _ => cls c = false | [] => True end →
  rep_greedy cls min k acc (a ++ b) = Some r.
Proof.
  intros Ha. revert acc. induction Ha as [|c a Hc _ IH];
    intros acc Hl Hk Hb; simpl.
  - rewrite app_nil_r in *. apply Nat.leb_le in Hl.
    destruct b as [|c b]; simpl.
    + unfold stop_here. by rewrite Hl.
    + rewrite Hb. unfold stop_here. by rewrite Hl.
  - rewrite Hc. rewrite IH; try done.
    + by rewrite <- app_assoc.
    + by rewrite <- app_assoc.
Qed.

(** A lazy quantifier hands the shortest run to its continuation
    first, and goes on where the continuation fails. *)
Lemma rep_lazy_skip (a b acc : text) :
  Forall (λ c, cls c = true) a →
  (∀ a1 a2, a = a1 ++ a2 → a2 ≠ [] →
            stop_here min k (acc ++ a1) (a2 ++ b) = None) →
  rep_lazy cls min k acc (a ++ b) = rep_lazy cls min k (acc ++ a) b.
Proof.
  intros Ha. revert acc. induction Ha as [|c a Hc _ IH]; intros acc Hn.
  - by rewrite app_nil_r.
  - pose proof (Hn [] (c :: a) eq_refl ltac:(done)) as H0.
    rewrite app_nil_r in H0. simpl in *. rewrite H0, Hc.
    rewrite IH; [by rewrite <- app_assoc|].
    intros a1 a2 -> Hne. rewrite <- app_assoc. simpl.
    by apply (Hn (c :: a1) a2).
Qed.

Lemma rep_lazy_stop (acc s : text) (r : R) :
  stop_here min k acc s = Some r →
  rep_lazy cls min k acc s = Some r.
Proof. intros H. destruct s; simpl; by rewrite H. Qed.
End QuantifierFacts.

Lemma run_sound (r : regex) (s : text)
    (k : text → list text → text → option R) (res : R) :
  run ic r s k = Some res →
  ∃ m caps rest, s = m ++ rest ∧ matches ic r m caps
                 ∧ k m caps rest = Some res.
Proof.
  revert s k. induction r as [cs|g min cls|r IH|r1 IH1 r2 IH2];
    intros s k H; simpl in H.
  - destruct (match_chars ic cs s) as [[m rest]|] eqn:Hm; [|done].
    apply match_chars_sound in Hm as [-> Hf].
    exists m, [], rest. by repeat split.
  - destruct g.
    + apply rep_greedy_sound in H as (a & b & -> & Ha & Hl & Hk).
      exists a, [], b. by repeat split.
    + apply rep_lazy_sound in H as (a & b & -> & Ha & Hl & Hk).
      exists a, [], b. by repeat split.
  - apply IH in H as (m & caps & rest & -> & Hm & Hk).
    exists m, (m :: caps), rest. repeat split; try done. by exists caps.
  - apply IH1 in H as (m1 & c1 & s1 & -> & Hm1 & H).
    apply IH2 in H as (m2 & c2 & s2 & -> & Hm2 & H).
    exists (m1 ++ m2), (c1 ++ c2), s2. rewrite <- app_assoc.
    repeat split; try done. by exists m1, m2, c1, c2.
Qed.

Lemma run_none (r : regex) (s : text)
    (k : text → list text → text → option R) :
  run ic r s k = None →
  ∀ m caps rest, s = m ++ rest → matches ic r m caps →
                 k m caps rest = None.
Proof.
  revert s k. induction r as [cs|g min cls|r IH|r1 IH1 r2 IH2];
    intros s k H m caps rest -> Hm; simpl in H, Hm.
  - destruct Hm as [Hf ->]. by rewrite (match_chars_complete _ _ _ Hf) in H.
  - destruct Hm as (Ha & Hl & ->). destruct g.
    + by apply (rep_greedy_none _ _ _ _ _ H m rest).
    + by apply (rep_lazy_none _ _ _ _ _ H m rest).
  - destruct Hm as (caps' & Hm & ->).
    by apply (IH _ _ H m caps' rest).
  - destruct Hm as (m1 & m2 & c1 & c2 & -> & -> & Hm1 & Hm2).
    rewrite <- app_assoc in H.
    pose proof (IH1 _ _ H m1 c1 (m2 ++ rest) eq_refl Hm1) as H2.
    simpl in H2. by apply (IH2 _ _ H2 m2 c2 rest).
Qed.
End MatcherFacts.

(** ** Leftmost search *)

Lemma match_here_sound (ic : bool) (r : regex) (s m : text)
    (caps : list text) (rest : text) :
  match_here ic r s = Some (m, caps, rest) →
  s = m ++ rest ∧ matches ic r m caps.
Proof.
  intros H. apply run_sound in H as (m' & caps' & rest' & -> & Hm & Heq).
  by simplify_eq.
Qed.

Lemma match_here_complete (ic : bool) (r : regex) (m : text)
    (caps : list text) (rest : text) :
  matches ic r m caps → match_here ic r (m ++ rest) ≠ None.
Proof.
  intros Hm H. by pose proof (run_none _ _ _ _ H m caps rest eq_refl Hm).
Qed.

Lemma search_sound (ic : bool) (r : regex) (s : text) (mr : match_result) :
  search ic r s = Some mr →
  s = m_pre mr ++ m_all mr ++ m_post mr
  ∧ match_here ic r (m_all mr ++ m_post mr)
    = Some (m_all mr, m_groups mr, m_post mr)
  ∧ ∀ a b, m_pre mr = a ++ b → b ≠ [] →
           match_here ic r (b ++ m_all mr ++ m_post mr) = None.
Proof.
  revert mr. induction s as [|c s IH]; intros mr H; simpl in H.
  - destruct (match_here ic r []) as [[[m caps] rest]|] eqn:Hm; [|done].
    simplify_eq. simpl.
    destruct (match_here_sound _ _ _ _ _ _ Hm) as [Hs _].
    split; [done|]. rewrite <- Hs. split; [done|].
    intros a b Hab Hb. by destruct a, b.
  - destruct (match_here ic r (c :: s)) as [[[m caps] rest]|] eqn:Hm.
    + simplify_eq. simpl.
      destruct (match_here_sound _ _ _ _ _ _ Hm) as [Hs _].
      split; [done|]. rewrite <- Hs. split; [done|].
      intros a b Hab Hb. by destruct a, b.
    + destruct (search ic r s) as [mr'|] eqn:Hs; [|done].
      simpl in H. simplify_eq.
      destruct (IH _ eq_refl) as (Hs' & Hm' & Hn). simpl.
      split; [by rewrite Hs'|]. split; [done|].
      intros a b Hab Hb. destruct a as [|c' a]; simpl in Hab.
      * subst b. simpl. by rewrite <- Hs'.
      * simplify_eq. by apply (Hn a b).
Qed.

Lemma search_split (ic : bool) (r : regex) (s : text) (mr : match_result) :
  search ic r s = Some mr →
  s = m_pre mr ++ m_all mr ++ m_post mr
  ∧ matches ic r (m_all mr) (m_groups mr).
Proof.
  intros H. destruct (search_sound _ _ _ _ H) as (Hs & Hm & _).
  split; [done|]. by apply match_here_sound in Hm as [_ ?].
Qed.

Lemma search_intro (ic : bool) (r : regex) (pre s m : text)
    (caps : list text) (post : text) :
  (∀ a b, pre = a ++ b → b ≠ [] → match_here ic r (b ++ s) = None) →
  match_here ic r s = Some (m, caps, post) →
  search ic r (pre ++ s) = Some (MatchResult pre m caps post).
Proof.
  induction pre as [|c pre IH]; intros Hn Hm.
  - destruct s; simpl; by rewrite Hm.
  - pose proof (Hn [] (c :: pre) eq_refl ltac:(done)) as H0.
    simpl in *. rewrite H0. rewrite IH; [done| |done].
    intros a b -> Hb. by apply (Hn (c :: a) b).
Qed.

Lemma search_none (ic : bool) (r : regex) (s : text) :
  search ic r s = None →
  ∀ pre m caps post, s = pre ++ m ++ post → ¬ matches ic r m caps.
Proof.
  induction s as [|c s IH]; intros H pre m caps post Hs Hm; simpl in H.
  - destruct (match_here ic r []) as [[[??]?]|] eqn:Hh; [done|].
    symmetry in Hs. apply app_eq_nil in Hs as [-> Hs].
    apply app_eq_nil in Hs as [-> ->].
    by apply (match_here_complete ic r [] caps [] Hm).
  - destruct (match_here ic r (c :: s)) as [[[??]?]|] eqn:Hh; [done|].
    destruct pre as [|c' pre]; simpl in Hs.
    + apply (match_here_complete ic r m caps post Hm). by rewrite <- Hs.
    + simplify_eq. destruct (search ic r (pre ++ m ++ post)) eqn:Hs'; [done|].
      by apply (IH eq_refl pre m caps post).
Qed.

Lemma search_complete (ic : bool) (r : regex) (pre m : text)
    (caps : list text) (post : text) :
  matches ic r m caps → search ic r (pre ++ m ++ post) ≠ None.
Proof. intros Hm H. by apply (search_none _ _ _ H pre m caps post). Qed.

Lemma test_true_iff (ic : bool) (r : regex) (s : text) :
  test ic r s = true ↔
  ∃ pre m caps post, s = pre ++ m ++ post ∧ matches ic r m caps.
Proof.
  unfold test. split.
  - destruct (search ic r s) as [mr|] eqn:H; [|done]. intros _.
    apply search_split in H as [Hs Hm].
    by exists (m_pre mr), (m_all mr), (m_groups mr), (m_post mr).
  - intros (pre & m & caps & post & -> & Hm).
    destruct (search ic r (pre ++ m ++ post)) eqn:H; [done|].
    by destruct (search_complete ic r pre m caps post Hm).
Qed.

(** The [exec] loop does not depend on the fuel once the fuel exceeds
    the length of the input. *)
Lemma exec_all_fuel (ic : bool) (r : regex) :
  (∀ m caps, matches ic r m caps → m ≠ []) →
  ∀ n1 n2 s, length s < n1 → length s < n2 →
             exec_all ic r n1 s = exec_all ic r n2 s.
Proof.
  intros Hne. induction n1 as [|n1 IH]; intros n2 s H1 H2; [lia|].
  destruct n2 as [|n2]; [lia|]. simpl.
  destruct (search ic r s) as [mr|] eqn:Hs; [|done]. f_equal.
  apply search_split in Hs as [Hs Hm]. apply Hne in Hm.
  assert (length (m_post mr) < length s).
  { rewrite Hs, !length_app.
    destruct (m_all mr); [done|simpl; lia]. }
  apply IH; lia.
Qed.

Lemma exec_all_unfold (ic : bool) (r : regex) (s : text) :
  (∀ m caps, matches ic r m caps → m ≠ []) →
  exec_all ic r (S (length s)) s =
  match search ic r s with
  | Some m => m :: exec_all ic r (S (length (m_post m))) (m_post m)
  | None => []
  end.
Proof.
  intros Hne. destruct (search ic r s) as [mr|] eqn:Hs.
  - change (exec_all ic r (S (length s)) s) with
      (match search ic r s with
       | Some m => m :: exec_all ic r (length s) (m_post m)
       | None => []
       end).
    rewrite Hs. f_equal.
    apply search_split in Hs as [Hs Hm]. apply Hne in Hm.
    apply exec_all_fuel; [done| |lia].
    rewrite Hs, !length_app.
    destruct (m_all mr); [done|simpl; lia].
  - simpl. by rewrite Hs.
Qed.

(** ** Fences *)

Lemma exact_chars (cs m : text) :
  Forall2 (λ p c, char_matches false p c = true) cs m → m = cs.
Proof.
  induction 1 as [|p c cs m Hc _ IH]; [done|].
  apply char_matches_exact in Hc. by subst.
Qed.

Lemma char_matches_backtick (ic : bool) (c : ascii) :
  char_matches ic backtick c = ascii_eqb backtick c.
Proof.
  destruct ic; [|done].
  destruct c as [[] [] [] [] [] [] [] []]; reflexivity.
Qed.

Lemma char_matches_nl (ic : bool) (c : ascii) :
  char_matches ic nl c = ascii_eqb nl c.
Proof.
  destruct ic; [|done].
  destruct c as [[] [] [] [] [] [] [] []]; reflexivity.
Qed.

Lemma fence_chars (ic : bool) (m : text) :
  Forall2 (λ p c, char_matches ic p c = true) fence m → m = fence.
Proof.
  intros H. unfold fence in *.
  repeat match goal with
  | H : Forall2 _ (_ :: _) _ |- _ =>
      apply Forall2_cons_inv_l in H as (? & ? & ? & H & ->)
  | H : Forall2 _ [] _ |- _ => apply Forall2_nil_inv_l in H as ->
  | H : char_matches _ backtick _ = true |- _ =>
      rewrite char_matches_backtick in H; apply ascii_eqb_eq in H as <-
  end.
  done.
Qed.

Lemma nl_chars (ic : bool) (m : text) :
  Forall2 (λ p c, char_matches ic p c = true) [nl] m → m = [nl].
Proof.
  intros H.
  apply Forall2_cons_inv_l in H as (c & ? & Hc & H & ->).
  apply Forall2_nil_inv_l in H as ->.
  rewrite char_matches_nl in Hc. by apply ascii_eqb_eq in Hc as <-.
Qed.

Lemma match_chars_fence_app (ic : bool) (rest : text) :
  match_chars ic fence (fence ++ rest) = Some (fence, rest).
Proof.
  apply match_chars_complete. unfold fence.
  repeat constructor; by destruct ic.
Qed.

Lemma match_chars_nl_app (ic : bool) (rest : text) :
  match_chars ic [nl] (nl :: rest) = Some ([nl], rest).
Proof.
  apply (match_chars_complete ic [nl] [nl] rest).
  repeat constructor; by destruct ic.
Qed.

Lemma starts_with_app (p s : text) : starts_with p (p ++ s) = true.
Proof. induction p as [|a p IH]; [done|]. simpl. by rewrite ascii_eqb_refl. Qed.

Lemma starts_with_inv (p s : text) :
  starts_with p s = true → ∃ rest, s = p ++ rest.
Proof.
  revert s. induction p as [|a p IH]; intros s H; simpl in H.
  - by exists s.
  - destruct s as [|b s]; [done|]. apply andb_true_iff in H as [Hab H].
    apply ascii_eqb_eq in Hab as ->. destruct (IH _ H) as [rest ->].
    by exists rest.
Qed.

Lemma match_chars_fence_none (ic : bool) (s : text) :
  starts_with fence s = false → match_chars ic fence s = None.
Proof.
  intros H. destruct (match_chars ic fence s) as [[m rest]|] eqn:Hm; [|done].
  apply match_chars_sound in Hm as [-> Hf]. apply fence_chars in Hf as ->.
  by rewrite starts_with_app in H.
Qed.

Lemma has_fence_suffix (a b : text) :
  has_fence (a ++ b) = false → has_fence b = false.
Proof.
  induction a as [|c a IH]; [done|]. simpl.
  intros H. apply orb_false_iff in H as [_ H]. by apply IH.
Qed.

Lemma has_fence_head (s : text) :
  has_fence s = false → starts_with fence s = false.
Proof.
  destruct s; [done|]. simpl. intros H. by apply orb_false_iff in H as [? _].
Qed.

Lemma ends_with_backtick_suffix (a b : text) :
  b ≠ [] → ends_with_backtick (a ++ b) = ends_with_backtick b.
Proof.
  intros Hb. unfold ends_with_backtick. rewrite rev_app_distr.
  destruct (rev b) eqn:Hr; [|done].
  apply (f_equal (@rev ascii)) in Hr. rewrite rev_involutive in Hr. done.
Qed.

(** Inside a text without fence, a fence can only begin on the last two
    characters, when backticks follow. *)
Lemma fence_free_start (a b rest : text) :
  fence_free (a ++ b) = true → b ≠ [] →
  starts_with fence (b ++ fence ++ rest) = false
  ∨ ∃ s', b ++ fence ++ rest = fence ++ backtick :: s'.
Proof.
  unfold fence_free. rewrite negb_true_iff. intros H Hb.
  apply has_fence_suffix, has_fence_head in H.
  destruct b as [|c1 [|c2 [|c3 b]]]; [done| | |].
  - destruct (ascii_eqb backtick c1) eqn:H1.
    + apply ascii_eqb_eq in H1 as <-. right. by exists rest.
    + left. simpl. by rewrite H1.
  - destruct (ascii_eqb backtick c1) eqn:H1;
      [destruct (ascii_eqb backtick c2) eqn:H2|].
    + apply ascii_eqb_eq in H1 as <-, H2 as <-. right.
      by exists (backtick :: rest).
    + left. simpl. by rewrite H1, H2.
    + left. simpl. by rewrite H1.
  - left. simpl in *.
    destruct (ascii_eqb backtick c1), (ascii_eqb backtick c2),
      (ascii_eqb backtick c3); done.
Qed.

(** No fence begins inside a closable body, whatever follows its closing
    fence. *)
Lemma closable_first_fence (a b rest : text) :
  closable (a ++ b) = true → b ≠ [] →
  starts_with fence (b ++ fence ++ rest) = false.
Proof.
  unfold closable, fence_free. rewrite andb_true_iff, !negb_true_iff.
  intros [H He] Hb. rewrite ends_with_backtick_suffix in He by done.
  apply has_fence_suffix, has_fence_head in H.
  unfold ends_with_backtick in He.
  destruct b as [|c1 [|c2 [|c3 b]]]; [done| | |]; simpl in *.
  - rewrite <- (ascii_eqb_refl backtick) at 1.
    destruct (ascii_eqb backtick c1) eqn:H1; [|done].
    apply ascii_eqb_eq in H1 as <-. by rewrite ascii_eqb_refl in He.
  - destruct (ascii_eqb backtick c2) eqn:H2.
    + apply ascii_eqb_eq in H2 as <-. by rewrite ascii_eqb_refl in He.
    + by destruct (ascii_eqb backtick c1).
  - destruct (ascii_eqb backtick c1), (ascii_eqb backtick c2),
      (ascii_eqb backtick c3); done.
Qed.

(** ** The block expression *)

Lemma forallb_Forall (p : ascii → bool) (s : text) :
  forallb p s = true ↔ Forall (λ c, p c = true) s.
Proof.
  induction s as [|c s IH]; simpl.
  - split; [by constructor|done].
  - rewrite andb_true_iff, IH. split.
    + intros [??]. by constructor.
    + by inversion 1.
Qed.

Lemma all_any (s : text) : Forall (λ c, is_any c = true) s.
Proof. by apply Forall_forall. Qed.

Lemma block_regex_shape (m : text) (caps : list text) :
  matches false block_regex m caps →
  ∃ w body, m = fence ++ w ++ [nl] ++ body ++ fence ∧ caps = [w; body]
            ∧ w ≠ [] ∧ Forall (λ c, is_word c = true) w.
Proof.
  simpl. intros H.
  destruct H as (m1 & ? & c1 & ? & -> & -> & [Hf ->] & H).
  destruct H as (w & ? & ? & ? & -> & -> & (? & (Hw & Hl & ->) & ->) & H).
  destruct H as (? & ? & ? & ? & -> & -> & [Hn ->] & H).
  destruct H as (body & ? & ? & ? & -> & -> & (? & (_ & _ & ->) & ->) & [Hf' ->]).
  apply (fence_chars false) in Hf as ->, Hf' as ->.
  apply (nl_chars false) in Hn as ->.
  exists w, body. repeat split; try done.
  intros ->. simpl in Hl. lia.
Qed.

Lemma block_regex_nonempty (m : text) (caps : list text) :
  matches false block_regex m caps → m ≠ [].
Proof. intros H. by apply block_regex_shape in H as (? & ? & -> & _). Qed.

Lemma block_here (w body rest : text) :
  w ≠ [] → Forall (λ c, is_word c = true) w → closable body = true →
  match_here false block_regex (fence ++ w ++ [nl] ++ body ++ fence ++ rest)
  = Some (fence ++ w ++ [nl] ++ body ++ fence, [w; body], rest).
Proof.
  intros Hw Hword Hbody. unfold match_here, block_regex. cbn [run].
  rewrite match_chars_fence_app.
  apply (rep_greedy_longest is_word 1 _ w ([nl] ++ body ++ fence ++ rest) []);
    [done|destruct w; [done|simpl; lia]| |done].
  cbn [run app]. rewrite match_chars_nl_app.
  rewrite (rep_lazy_skip is_any 0 _ body (fence ++ rest) []);
    [|apply all_any|].
  - apply rep_lazy_stop. unfold stop_here. cbn [Nat.leb].
    by rewrite match_chars_fence_app.
  - intros a1 a2 -> Hne. unfold stop_here. cbn [Nat.leb].
    rewrite match_chars_fence_none; [done|].
    by apply (closable_first_fence a1 a2).
Qed.

Lemma block_here_no_fence (s : text) :
  starts_with fence s = false → match_here false block_regex s = None.
Proof.
  intros H. unfold match_here, block_regex. cbn [run].
  by rewrite match_chars_fence_none.
Qed.

Lemma block_here_backtick (s : text) :
  match_here false block_regex (fence ++ backtick :: s) = None.
Proof. reflexivity. Qed.

Lemma block_search (pre w body rest : text) :
  fence_free pre = true → w ≠ [] → Forall (λ c, is_word c = true) w →
  closable body = true →
  search false block_regex (pre ++ fence ++ w ++ [nl] ++ body ++ fence ++ rest)
  = Some (MatchResult pre (fence ++ w ++ [nl] ++ body ++ fence) [w; body] rest).
Proof.
  intros Hpre Hw Hword Hbody. apply search_intro; [|by apply block_here].
  intros a b -> Hb.
  destruct (fence_free_start a b (w ++ [nl] ++ body ++ fence ++ rest) Hpre Hb)
    as [H|[s' H]].
  - by apply block_here_no_fence.
  - rewrite H. apply block_here_backtick.
Qed.

Lemma block_search_none (s : text) :
  fence_free s = true → search false block_regex s = None.
Proof.
  intros H. destruct (search false block_regex s) as [mr|] eqn:Hs; [|done].
  apply search_split in Hs as [-> Hm].
  apply block_regex_shape in Hm as (w & body & Hm & _).
  unfold fence_free in H.
  apply negb_true_iff, has_fence_suffix, has_fence_head in H.
  by rewrite Hm, <- app_assoc, starts_with_app in H.
Qed.

(** ** extractCodeBlocks *)

Lemma bylang_extract_string (s : text) :
  ByLanguage.extractCodeBlocks (JString s)
  = map ByLanguage.block_of (exec_all false block_regex (S (length s)) s).
Proof. by destruct s. Qed.

Lemma byfile_extract_string (s : text) :
  ByFilename.extractCodeBlocks (JString s)
  = map ByFilename.block_of (exec_all false block_regex (S (length s)) s).
Proof. by destruct s. Qed.

Lemma well_formed_inv (f : fenced) :
  well_formed f = true →
  fence_free (f_before f) = true ∧ f_lang f ≠ []
  ∧ Forall (λ c, is_word c = true) (f_lang f) ∧ closable (f_body f) = true.
Proof.
  unfold well_formed. rewrite !andb_true_iff. intros [[H1 H2] H3].
  destruct (f_lang f) eqn:Hl; [done|].
  repeat split; try done. by apply forallb_Forall.
Qed.

Lemma exec_all_render {B : Type} (g : match_result → B) (h : fenced → B) :
  (∀ f pre post,
     g (MatchResult pre (fenced_span f) [f_lang f; f_body f] post) = h f) →
  ∀ blocks tail,
    forallb well_formed blocks = true → fence_free tail = true →
    map g (exec_all false block_regex (S (length (render blocks tail)))
             (render blocks tail))
    = map h blocks.
Proof.
  intros Hg blocks tail Hwf Htail.
  induction blocks as [|f blocks IH].
  - rewrite exec_all_unfold by apply block_regex_nonempty. simpl.
    by rewrite block_search_none.
  - simpl in Hwf. apply andb_true_iff in Hwf as [Hf Hwf].
    apply well_formed_inv in Hf as (H1 & H2 & H3 & H4).
    rewrite exec_all_unfold by apply block_regex_nonempty.
    cbn [render fold_right]. fold (render blocks tail).
    unfold fenced_span at 1. rewrite <- !app_assoc.
    rewrite block_search by done. cbn [m_post map]. f_equal.
    + apply Hg.
    + by apply IH.
Qed.

(** C3.  [extractCodeBlocks] is defined on every value and yields no
    block for a value that is no string (undefined, null, a number, an
    object); its loop ends because [exec] finds no further match, never
    for want of fuel; and on a document laid out as N well-formed fenced
    blocks (fence-free text around them, a language token of word
    characters, a body that holds no fence and ends in no backtick) it
    yields exactly those N blocks in source order, each with its
    language in lower case, its body the exact text between the opening
    fence line and the closing fence, and its raw span.  Both
    variants. *)
Theorem extract_total_in_order (v : js_value) (blocks : list fenced)
    (tail : text) :
  forallb well_formed blocks = true → fence_free tail = true →
  ((∀ s, v ≠ JString s) →
     ByLanguage.extractCodeBlocks v = []
     ∧ ByFilename.extractCodeBlocks v = [])
  ∧ (∀ s n, length s < n →
       map ByLanguage.block_of (exec_all false block_regex n s)
       = ByLanguage.extractCodeBlocks (JString s))
  ∧ ByLanguage.extractCodeBlocks (JString (render blocks tail))
    = map (λ f, {| ByLanguage.lang := toLowerCase (f_lang f);
                   ByLanguage.code := f_body f;
                   ByLanguage.fullBlock := fenced_span f |}) blocks
  ∧ map (λ b, (ByFilename.lang b, ByFilename.code b, ByFilename.fullBlock b))
        (ByFilename.extractCodeBlocks (JString (render blocks tail)))
    = map (λ f, (toLowerCase (f_lang f), f_body f, fenced_span f)) blocks.
Proof.
  intros Hwf Htail. split; [|split; [|split]].
  - intros Hv. destruct v; try done. by destruct (Hv s).
  - intros s n Hn. rewrite bylang_extract_string. f_equal.
    apply exec_all_fuel; [apply block_regex_nonempty|done|lia].
  - rewrite bylang_extract_string. by apply exec_all_render.
  - rewrite byfile_extract_string, map_map. by apply exec_all_render.
Qed.

Lemma extract_total_in_order_witness :
  let blocks :=
    [ {| f_before := js "intro\n"; f_lang := js "JS";
         f_body := js "let a = `x`;\n" |};
      {| f_before := js "\nthen\n"; f_lang := js "html";
         f_body := js "<p>\n" |} ] in
  forallb well_formed blocks = true
  ∧ fence_free (js "\nend") = true
  ∧ ByLanguage.extractCodeBlocks JUndefined = []
  ∧ ByLanguage.extractCodeBlocks (JString (render blocks (js "\nend")))
    = [ {| ByLanguage.lang := js "js";
           ByLanguage.code := js "let a = `x`;\n";
           ByLanguage.fullBlock := js "```JS\nlet a = `x`;\n```" |};
        {| ByLanguage.lang := js "html";
           ByLanguage.code := js "<p>\n";
           ByLanguage.fullBlock := js "```html\n<p>\n```" |} ].
Proof.
  intros blocks.
  pose proof (extract_total_in_order JUndefined blocks (js "\nend")
                eq_refl eq_refl) as (H1 & _ & H2 & _).
  split; [reflexivity|]. split; [reflexivity|].
  split; [by apply H1|]. exact H2.
Defined.

(** Every result of the [exec] loop lies in the input. *)
Lemma exec_all_elem (ic : bool) (r : regex) (n : nat) (s : text)
    (mr : match_result) :
  In mr (exec_all ic r n s) →
  (∃ pre post, s = pre ++ m_all mr ++ post)
  ∧ matches ic r (m_all mr) (m_groups mr).
Proof.
  revert s. induction n as [|n IH]; intros s H; simpl in H; [done|].
  destruct (search ic r s) as [m0|] eqn:Hs; [|done].
  apply search_split in Hs as [Hs Hm]. destruct H as [->|H].
  - split; [|done]. by exists (m_pre mr), (m_post mr).
  - destruct (IH _ H) as [(pre & post & Hp) ?]. split; [|done].
    exists (m_pre m0 ++ m_all m0 ++ pre), post.
    by rewrite Hs, Hp, <- !app_assoc.
Qed.

Lemma bylang_block_shape (doc : text) (b : ByLanguage.CodeBlock) :
  b ∈ ByLanguage.extractCodeBlocks (JString doc) →
  ∃ w, ByLanguage.fullBlock b = fence ++ w ++ [nl] ++ ByLanguage.code b ++ fence
       ∧ ByLanguage.lang b = toLowerCase w
       ∧ w ≠ [] ∧ Forall (λ c, is_word c = true) w
       ∧ ∃ pre post, doc = pre ++ ByLanguage.fullBlock b ++ post.
Proof.
  rewrite bylang_extract_string, list_elem_of_In, in_map_iff.
  intros (mr & <- & H). apply exec_all_elem in H as [Hd Hm].
  apply block_regex_shape in Hm as (w & body & Hall & Hg & Hw & Hword).
  exists w. unfold ByLanguage.block_of, group. rewrite Hg. simpl.
  by repeat split.
Qed.

Lemma byfile_block_shape (doc : text) (b : ByFilename.CodeBlock) :
  b ∈ ByFilename.extractCodeBlocks (JString doc) →
  ∃ w, ByFilename.fullBlock b = fence ++ w ++ [nl] ++ ByFilename.code b ++ fence
       ∧ ByFilename.lang b = toLowerCase w
       ∧ w ≠ [] ∧ Forall (λ c, is_word c = true) w
       ∧ ∃ pre post, doc = pre ++ ByFilename.fullBlock b ++ post.
Proof.
  rewrite byfile_extract_string, list_elem_of_In, in_map_iff.
  intros (mr & <- & H). apply exec_all_elem in H as [Hd Hm].
  apply block_regex_shape in Hm as (w & body & Hall & Hg & Hw & Hword).
  exists w. unfold ByFilename.block_of, group. rewrite Hg. simpl.
  by repeat split.
Qed.

Lemma toLowerCase_length (s : text) : length (toLowerCase s) = length s.
Proof. apply length_map. Qed.

Lemma respan_length (pre w body post : text) :
  length (pre ++ (fence ++ toLowerCase w ++ [nl] ++ body ++ [nl] ++ fence)
              ++ post)
  = S (length (pre ++ (fence ++ w ++ [nl] ++ body ++ fence) ++ post)).
Proof. rewrite !length_app, toLowerCase_length. simpl. lia. Qed.

(** C4, as the code has it.  Re-serialising an extracted block the way
    the merger does and putting the string in the place of the block's
    raw span gives the document with the language token of that block in
    lower case and one more line feed before its closing fence: the result
    is one character longer than the document, in both variants. *)
Theorem reserialize_adds_line_feed (doc : text) :
  (∀ b, b ∈ ByLanguage.extractCodeBlocks (JString doc) →
     ∃ w, ByLanguage.fullBlock b
            = fence ++ w ++ [nl] ++ ByLanguage.code b ++ fence
        ∧ ByLanguage.newFullBlock b
            = fence ++ toLowerCase w ++ [nl] ++ ByLanguage.code b
                ++ [nl] ++ fence
        ∧ (∃ pre post, doc = pre ++ ByLanguage.fullBlock b ++ post)
        ∧ ∀ pre post, doc = pre ++ ByLanguage.fullBlock b ++ post →
            length (pre ++ ByLanguage.newFullBlock b ++ post)
            = S (length doc))
  ∧ (∀ b, b ∈ ByFilename.extractCodeBlocks (JString doc) →
     ∃ w, ByFilename.fullBlock b
            = fence ++ w ++ [nl] ++ ByFilename.code b ++ fence
        ∧ ByFilename.newFullBlock b
            = fence ++ toLowerCase w ++ [nl] ++ ByFilename.code b
                ++ [nl] ++ fence
        ∧ (∃ pre post, doc = pre ++ ByFilename.fullBlock b ++ post)
        ∧ ∀ pre post, doc = pre ++ ByFilename.fullBlock b ++ post →
            length (pre ++ ByFilename.newFullBlock b ++ post)
            = S (length doc)).
Proof.
  split; intros b Hb.
  - apply bylang_block_shape in Hb as (w & Hfull & Hlang & _ & _ & Hdoc).
    exists w. unfold ByLanguage.newFullBlock. rewrite Hlang.
    repeat split; try done.
    intros pre post ->. rewrite Hfull. apply respan_length.
  - apply byfile_block_shape in Hb as (w & Hfull & Hlang & _ & _ & Hdoc).
    exists w. unfold ByFilename.newFullBlock. rewrite Hlang.
    repeat split; try done.
    intros pre post ->. rewrite Hfull. apply respan_length.
Qed.

Lemma reserialize_adds_line_feed_witness :
  let b := {| ByLanguage.lang := js "js"; ByLanguage.code := js "foo\n";
              ByLanguage.fullBlock := js "```JS\nfoo\n```" |} in
  b ∈ ByLanguage.extractCodeBlocks (JString (js "a ```JS\nfoo\n``` b"))
  ∧ ∃ w, ByLanguage.fullBlock b
           = fence ++ w ++ [nl] ++ ByLanguage.code b ++ fence
       ∧ ByLanguage.newFullBlock b
           = fence ++ toLowerCase w ++ [nl] ++ ByLanguage.code b
               ++ [nl] ++ fence
       ∧ (∃ pre post,
            js "a ```JS\nfoo\n``` b" = pre ++ ByLanguage.fullBlock b ++ post)
       ∧ ∀ pre post,
           js "a ```JS\nfoo\n``` b" = pre ++ ByLanguage.fullBlock b ++ post →
           length (pre ++ ByLanguage.newFullBlock b ++ post)
           = S (length (js "a ```JS\nfoo\n``` b")).
Proof.
  intros b.
  assert (Hb : b ∈ ByLanguage.extractCodeBlocks
                     (JString (js "a ```JS\nfoo\n``` b"))).
  { vm_compute. apply list_elem_of_here. }
  split; [exact Hb|].
  exact (proj1 (reserialize_adds_line_feed (js "a ```JS\nfoo\n``` b")) b Hb).
Defined.

(** C4, as the spec has it, fails on the smallest document: the document
    is one block, and the re-serialised block is not the document. *)
Lemma roundtrip_counterexample :
  let doc := js "```js\nfoo\n```" in
  let b := {| ByLanguage.lang := js "js"; ByLanguage.code := js "foo\n";
              ByLanguage.fullBlock := doc |} in
  ByLanguage.extractCodeBlocks (JString doc) = [b]
  ∧ doc = [] ++ ByLanguage.fullBlock b ++ []
  ∧ [] ++ ByLanguage.newFullBlock b ++ [] = js "```js\nfoo\n\n```"
  ∧ [] ++ ByLanguage.newFullBlock b ++ [] ≠ doc.
Proof. repeat split. vm_compute. discriminate. Qed.

(** ** Replacement by language *)

Lemma word_not_backtick (p : ascii) :
  is_word p = true → char_matches true p backtick = false.
Proof. destruct p as [[] [] [] [] [] [] [] []]; vm_compute; congruence. Qed.

Lemma dash_word_not_backtick : is_word_or_dash backtick = false.
Proof. reflexivity. Qed.

Lemma lang_regex_shape (l m : text) (caps : list text) :
  matches true (lang_regex l) m caps →
  ∃ w body, m = fence ++ w ++ [nl] ++ body ++ fence
            ∧ Forall2 (λ p c, char_matches true p c = true) l w
            ∧ caps = [].
Proof.
  simpl. intros H.
  destruct H as (m1 & ? & c1 & ? & -> & -> & [Hf ->] & H).
  destruct H as (w & ? & ? & ? & -> & -> & [Hw ->] & H).
  destruct H as (? & ? & ? & ? & -> & -> & [Hn ->] & H).
  destruct H as (body & ? & ? & ? & -> & -> & (_ & _ & ->) & [Hf' ->]).
  apply (fence_chars true) in Hf as ->, Hf' as ->.
  apply (nl_chars true) in Hn as ->.
  by exists w, body.
Qed.

Lemma lang_here (l w body rest : text) :
  Forall2 (λ p c, char_matches true p c = true) l w →
  closable body = true →
  match_here true (lang_regex l) (fence ++ w ++ [nl] ++ body ++ fence ++ rest)
  = Some (fence ++ w ++ [nl] ++ body ++ fence, [], rest).
Proof.
  intros Hw Hbody. unfold match_here, lang_regex. cbn [run].
  rewrite match_chars_fence_app.
  rewrite (match_chars_complete true l w _ Hw).
  cbn [app]. rewrite match_chars_nl_app.
  rewrite (rep_lazy_skip is_any 0 _ body (fence ++ rest) []);
    [|apply all_any|].
  - apply rep_lazy_stop. unfold stop_here. cbn [Nat.leb].
    by rewrite match_chars_fence_app.
  - intros a1 a2 -> Hne. unfold stop_here. cbn [Nat.leb].
    rewrite match_chars_fence_none; [done|].
    by apply (closable_first_fence a1 a2).
Qed.

Lemma lang_here_no_fence (l s : text) :
  starts_with fence s = false → match_here true (lang_regex l) s = None.
Proof.
  intros H. unfold match_here, lang_regex. cbn [run].
  by rewrite match_chars_fence_none.
Qed.

Lemma lang_here_backtick (l s : text) :
  l ≠ [] → Forall (λ c, is_word c = true) l →
  match_here true (lang_regex l) (fence ++ backtick :: s) = None.
Proof.
  intros Hl Hw. destruct l as [|p l]; [done|].
  apply Forall_cons in Hw as [Hp _].
  unfold match_here, lang_regex. cbn [run].
  rewrite match_chars_fence_app. cbn [match_chars].
  by rewrite (word_not_backtick p Hp).
Qed.

Lemma match_chars_app (ic : bool) (p1 p2 s : text) :
  match_chars ic (p1 ++ p2) s
  = match match_chars ic p1 s with
    | Some (m1, r1) =>
        match match_chars ic p2 r1 with
        | Some (m2, r2) => Some (m1 ++ m2, r2)
        | None => None
        end
    | None => None
    end.
Proof.
  revert s. induction p1 as [|p p1 IH]; intros s.
  - cbn [app]. replace (match_chars ic [] s) with (Some ([] : text, s))
      by (by destruct s).
    by destruct (match_chars ic p2 s) as [[??]|].
  - destruct s as [|c s]; [done|]. cbn [app match_chars].
    destruct (char_matches ic p c); [|done]. rewrite IH.
    destruct (match_chars ic p1 s) as [[m1 r1]|]; [|done].
    by destruct (match_chars ic p2 r1) as [[m2 r2]|].
Qed.

Lemma lang_here_not_open (l s : text) :
  opens_at l s = false → match_here true (lang_regex l) s = None.
Proof.
  unfold opens_at, match_here, lang_regex. cbn [run].
  rewrite (match_chars_app true fence).
  destruct (match_chars true fence s) as [[m1 r1]|]; [|done].
  rewrite (match_chars_app true l).
  destruct (match_chars true l r1) as [[m2 r2]|]; [|done].
  by destruct (match_chars true [nl] r2) as [[m3 r3]|].
Qed.

Lemma no_opening_in_suffix (l a b rest : text) :
  no_opening_in l (a ++ b) rest = true → b ≠ [] →
  opens_at l (b ++ rest) = false.
Proof.
  induction a as [|c a IH]; intros H Hb.
  - destruct b as [|c b]; [done|]. cbn [app no_opening_in] in H.
    apply andb_true_iff in H as [H _]. by apply negb_true_iff in H.
  - cbn [app no_opening_in] in H. apply andb_true_iff in H as [_ H].
    by apply IH.
Qed.

(** Fence-free text holds no opening fence line of a language of word
    characters. *)
Lemma fence_free_no_opening (l pre rest : text) :
  l ≠ [] → Forall (λ c, is_word c = true) l →
  fence_free pre = true →
  no_opening_in l pre (fence ++ rest) = true.
Proof.
  intros Hl Hword. induction pre as [|c pre IH]; intros Hpre; [done|].
  cbn [no_opening_in]. apply andb_true_iff. split.
  - apply negb_true_iff.
    destruct (fence_free_start [] (c :: pre) rest Hpre) as [H|[s' H]];
      [done| |].
    + unfold opens_at. rewrite (match_chars_app true fence).
      by rewrite (match_chars_fence_none true _ H).
    + rewrite H. unfold opens_at. rewrite (match_chars_app true fence).
      rewrite match_chars_fence_app. destruct l as [|p l]; [done|].
      apply Forall_cons in Hword as [Hp _]. cbn [app match_chars].
      by rewrite (word_not_backtick p Hp).
  - apply IH. unfold fence_free in *.
    apply negb_true_iff in Hpre. apply negb_true_iff.
    by apply (has_fence_suffix [c]).
Qed.

Lemma lang_search (l pre w body rest : text) :
  no_opening_in l pre (fence ++ w ++ [nl] ++ body ++ fence ++ rest) = true →
  Forall2 (λ p c, char_matches true p c = true) l w →
  closable body = true →
  search true (lang_regex l)
    (pre ++ fence ++ w ++ [nl] ++ body ++ fence ++ rest)
  = Some (MatchResult pre (fence ++ w ++ [nl] ++ body ++ fence) [] rest).
Proof.
  intros Hpre Hw Hbody. apply search_intro; [|by apply lang_here].
  intros a b -> Hb. apply lang_here_not_open.
  by apply (no_opening_in_suffix l a b).
Qed.

(** What [replaceFirstCodeBlockByLang] returns, by the outcome of the
    search. *)
Lemma replace_by_lang_found (base l newBlock : text) (mr : match_result) :
  search true (lang_regex l) base = Some mr →
  ByLanguage.replaceFirstCodeBlockByLang base l newBlock
  = (m_pre mr ++ get_substitution (m_all mr) (m_pre mr) (m_post mr) newBlock
       ++ m_post mr, true).
Proof.
  intros H. unfold ByLanguage.replaceFirstCodeBlockByLang, test, replace_first.
  by rewrite H.
Qed.

Lemma replace_by_lang_missing (base l newBlock : text) :
  search true (lang_regex l) base = None →
  ByLanguage.replaceFirstCodeBlockByLang base l newBlock = (base, false).
Proof.
  intros H. unfold ByLanguage.replaceFirstCodeBlockByLang, test.
  by rewrite H.
Qed.

(** ** The consumed languages *)

Lemma get_truthy_set_true (obj : gset text) (key : text) :
  get_truthy (set_true obj key) key = true.
Proof.
  unfold get_truthy, set_true. destruct (decide (key = proto_key)) as [->|].
  - apply orb_true_iff. right. by vm_compute.
  - apply orb_true_iff. left. apply bool_decide_eq_true.
    apply elem_of_union. left. by apply elem_of_singleton.
Qed.

Lemma get_truthy_keeps (obj : gset text) (key key' : text) :
  get_truthy obj key = true → get_truthy (set_true obj key') key = true.
Proof.
  unfold get_truthy, set_true. destruct (decide (key' = proto_key)); [done|].
  rewrite !orb_true_iff, !bool_decide_eq_true.
  intros [H|H]; [left|by right]. apply elem_of_union. by right.
Qed.

Lemma step_keys (st : ByLanguage.merge_state) (blk : ByLanguage.CodeBlock) :
  ByLanguage.replacedLangs (ByLanguage.merge_step st blk)
  = set_true (ByLanguage.replacedLangs st) (ByLanguage.lang blk).
Proof.
  unfold ByLanguage.merge_step.
  destruct (negb _); [|done].
  by destruct (ByLanguage.replaceFirstCodeBlockByLang _ _ _) as [? []].
Qed.

Lemma step_cases (st : ByLanguage.merge_state) (blk : ByLanguage.CodeBlock) :
  ByLanguage.merge_step st blk
  = if ByLanguage.replaces st blk
    then {| ByLanguage.merged :=
              replace_first true (lang_regex (ByLanguage.lang blk))
                (ByLanguage.merged st) (ByLanguage.newFullBlock blk);
            ByLanguage.replacedLangs :=
              set_true (ByLanguage.replacedLangs st) (ByLanguage.lang blk) |}
    else ByLanguage.append_block st blk.
Proof.
  unfold ByLanguage.merge_step, ByLanguage.replaces,
    ByLanguage.replaceFirstCodeBlockByLang.
  destruct (negb _); [|done]. by destruct (test _ _ _).
Qed.

Lemma step_consumed (st : ByLanguage.merge_state) (blk : ByLanguage.CodeBlock) :
  get_truthy (ByLanguage.replacedLangs st) (ByLanguage.lang blk) = true →
  ByLanguage.replaces st blk = false
  ∧ ByLanguage.merge_step st blk = ByLanguage.append_block st blk.
Proof.
  intros H. unfold ByLanguage.merge_step, ByLanguage.replaces.
  by rewrite H.
Qed.

Lemma loop_keeps (blks : list ByLanguage.CodeBlock)
    (st : ByLanguage.merge_state) (l : text) :
  get_truthy (ByLanguage.replacedLangs st) l = true →
  get_truthy (ByLanguage.replacedLangs (ByLanguage.merge_loop st blks)) l
  = true.
Proof.
  revert st. induction blks as [|b blks IH]; intros st H; [done|].
  simpl. apply IH. rewrite step_keys. by apply get_truthy_keeps.
Qed.

Lemma merge_loop_app (st : ByLanguage.merge_state)
    (l1 l2 : list ByLanguage.CodeBlock) :
  ByLanguage.merge_loop st (l1 ++ l2)
  = ByLanguage.merge_loop (ByLanguage.merge_loop st l1) l2.
Proof. apply fold_left_app. Qed.

Lemma in_place_cons (l : text) (st : ByLanguage.merge_state)
    (b : ByLanguage.CodeBlock) (blks : list ByLanguage.CodeBlock) :
  ByLanguage.in_place l st (b :: blks)
  = (if ByLanguage.replaces st b && bool_decide (ByLanguage.lang b = l)
     then [b] else [])
    ++ ByLanguage.in_place l (ByLanguage.merge_step st b) blks.
Proof.
  unfold ByLanguage.in_place.
  cbn [ByLanguage.turns combine List.filter fst snd].
  by destruct (_ && _).
Qed.

(** Once a language is consumed, no later block of that language is put
    in place of a block. *)
Lemma in_place_consumed (blks : list ByLanguage.CodeBlock)
    (st : ByLanguage.merge_state) (l : text) :
  get_truthy (ByLanguage.replacedLangs st) l = true →
  ByLanguage.in_place l st blks = [].
Proof.
  revert st. induction blks as [|b blks IH]; intros st H; [done|].
  rewrite in_place_cons.
  rewrite IH by (rewrite step_keys; by apply get_truthy_keeps).
  destruct (bool_decide (ByLanguage.lang b = l)) eqn:Hl.
  - apply bool_decide_eq_true in Hl as <-.
    by destruct (step_consumed st b H) as [-> _].
  - by rewrite andb_false_r.
Qed.

Lemma in_place_at_most_one (blks : list ByLanguage.CodeBlock)
    (st : ByLanguage.merge_state) (l : text) :
  length (ByLanguage.in_place l st blks) ≤ 1.
Proof.
  revert st. induction blks as [|b blks IH]; intros st; [simpl; lia|].
  rewrite in_place_cons.
  destruct (bool_decide (ByLanguage.lang b = l)) eqn:Hl.
  - apply bool_decide_eq_true in Hl as <-.
    rewrite in_place_consumed
      by (rewrite step_keys; apply get_truthy_set_true).
    destruct (ByLanguage.replaces st b); simpl; lia.
  - rewrite andb_false_r. apply IH.
Qed.

Lemma loop_keys (blks : list ByLanguage.CodeBlock)
    (st : ByLanguage.merge_state) (l : text) :
  l ∈ ByLanguage.replacedLangs (ByLanguage.merge_loop st blks)
  ↔ l ∈ ByLanguage.replacedLangs st
    ∨ (l ≠ proto_key ∧ ∃ b, b ∈ blks ∧ ByLanguage.lang b = l).
Proof.
  revert st. induction blks as [|b blks IH]; intros st.
  - simpl. split; [by left|]. intros [?|(_ & b & Hb & _)]; [done|].
    by apply not_elem_of_nil in Hb.
  - cbn [ByLanguage.merge_loop fold_left].
    change (fold_left ByLanguage.merge_step blks ?s)
      with (ByLanguage.merge_loop s blks).
    rewrite IH, step_keys. unfold set_true.
    destruct (decide (ByLanguage.lang b = proto_key)) as [Hp|Hp].
    + split.
      * intros [?|(Hl & b' & Hb' & <-)]; [by left|].
        right. split; [done|]. exists b'. split; [by right|done].
      * intros [?|(Hl & b' & Hb' & <-)]; [by left|].
        apply elem_of_cons in Hb' as [->|Hb']; [done|].
        right. split; [done|]. by exists b'.
    + rewrite elem_of_union, elem_of_singleton. split.
      * intros [[->|?]|(Hl & b' & Hb' & <-)].
        -- right. split; [done|]. exists b. split; [by left|done].
        -- by left.
        -- right. split; [done|]. exists b'. split; [by right|done].
      * intros [?|(Hl & b' & Hb' & <-)]; [left; by right|].
        apply elem_of_cons in Hb' as [->|Hb']; [left; by left|].
        right. split; [done|]. by exists b'.
Qed.

Lemma get_substitution_plain (matched pre post template : text) :
  dollar ∉ template →
  get_substitution matched pre post template = template.
Proof.
  intros H. induction template as [|a t IH]; [done|].
  apply not_elem_of_cons in H as [Ha Ht].
  destruct t as [|b t]; [done|].
  cbn [get_substitution].
  assert (ascii_eqb a dollar = false) as -> by (by apply ascii_eqb_neq).
  f_equal. by apply IH.
Qed.

(** What a successful replacement by language changes: one span that
    runs from an opening fence line of the language (in any case) to
    the next fence; the text before and after the span is kept. *)
Lemma replace_by_lang_frame (base l newBlock updated : text) :
  ByLanguage.replaceFirstCodeBlockByLang base l newBlock = (updated, true) →
  ∃ pre w body post,
    base = pre ++ (fence ++ w ++ [nl] ++ body ++ fence) ++ post
    ∧ Forall2 (λ p c, char_matches true p c = true) l w
    ∧ updated
      = pre
        ++ get_substitution (fence ++ w ++ [nl] ++ body ++ fence) pre post
             newBlock
        ++ post.
Proof.
  unfold ByLanguage.replaceFirstCodeBlockByLang, test, replace_first.
  destruct (search true (lang_regex l) base) as [mr|] eqn:Hs; [|done].
  intros [= <-]. apply search_split in Hs as [Hb Hm].
  apply lang_regex_shape in Hm as (w & body & Hall & Hw & _).
  exists (m_pre mr), w, body, (m_post mr). by rewrite <- Hall.
Qed.

(** Without a dollar in the new block the replacement is verbatim. *)
Lemma replace_by_lang_verbatim (base l newBlock updated : text) :
  dollar ∉ newBlock →
  ByLanguage.replaceFirstCodeBlockByLang base l newBlock = (updated, true) →
  ∃ pre w body post,
    base = pre ++ (fence ++ w ++ [nl] ++ body ++ fence) ++ post
    ∧ updated = pre ++ newBlock ++ post.
Proof.
  intros Hd H. apply replace_by_lang_frame in H
    as (pre & w & body & post & Hb & _ & Hu).
  exists pre, w, body, post. split; [done|].
  by rewrite Hu, get_substitution_plain.
Qed.

(** A language that names a property every object inherits reads as
    consumed from the start: its block is appended, never put in place,
    and [__proto__] is not even reported. *)
Example inherited_key_appended :
  let reply := ByLanguage.merge (js "```constructor\nold\n```")
                 (js "```constructor\nnew\n``````__proto__\nx\n```") in
  ByLanguage.output reply
  = js "```constructor\nold\n```\n\n```constructor\nnew\n\n```\n\n```__proto__\nx\n\n```"
  ∧ ByLanguage.replacedLangs_keys reply = {[ js "constructor" ]}.
Proof.
  split; [by vm_compute|].
  apply set_eq. intros l. unfold ByLanguage.merge.
  cbn [ByLanguage.replacedLangs_keys]. rewrite loop_keys.
  cbn [ByLanguage.replacedLangs]. rewrite elem_of_singleton. split.
  - intros [H|(Hp & b & Hb & <-)]; [by apply not_elem_of_empty in H|].
    vm_compute in Hb.
    apply elem_of_cons in Hb as [->|Hb]; [done|].
    apply elem_of_cons in Hb as [->|Hb]; [done|].
    by apply not_elem_of_nil in Hb.
  - intros ->. right. split; [done|].
    exists {| ByLanguage.lang := js "constructor";
              ByLanguage.code := js "new\n";
              ByLanguage.fullBlock := js "```constructor\nnew\n```" |}.
    split; [|done]. vm_compute. apply list_elem_of_here.
Qed.

(** By language, where the replacement meets a block.  Take two new
    blocks of one language and a previous text whose first opening
    fence line of that language (in any case) opens a block, whatever stands before it, blocks of other
    languages included: the first new block goes in the place of that
    first block, everything after it, a second block of the language
    included, stays as it is, and the second new block is appended at
    the end after a blank line.  In general: once a new block has been
    put in place of a block, every later new block of its language is
    appended.  The text put in place is the new fenced block when it
    holds no dollar, and its expansion by [replace] otherwise. *)
Theorem first_match_only (t0 w body1 rest : text)
    (n1 n2 : ByLanguage.CodeBlock) :
  get_truthy ∅ (ByLanguage.lang n1) = false →
  ByLanguage.lang n2 = ByLanguage.lang n1 →
  no_opening_in (ByLanguage.lang n1) t0
    (fence ++ w ++ [nl] ++ body1 ++ fence ++ rest) = true →
  Forall2 (λ p c, char_matches true p c = true) (ByLanguage.lang n1) w →
  closable body1 = true →
  ByLanguage.merged
    (ByLanguage.merge_loop
       {| ByLanguage.merged :=
            t0 ++ fence ++ w ++ [nl] ++ body1 ++ fence ++ rest;
          ByLanguage.replacedLangs := ∅ |}
       [n1; n2])
  = t0
    ++ get_substitution (fence ++ w ++ [nl] ++ body1 ++ fence) t0 rest
         (ByLanguage.newFullBlock n1)
    ++ rest ++ blank_line ++ ByLanguage.newFullBlock n2
  ∧ (dollar ∉ ByLanguage.newFullBlock n1 →
     ByLanguage.merged
       (ByLanguage.merge_loop
          {| ByLanguage.merged :=
               t0 ++ fence ++ w ++ [nl] ++ body1 ++ fence ++ rest;
             ByLanguage.replacedLangs := ∅ |}
          [n1; n2])
     = t0 ++ ByLanguage.newFullBlock n1 ++ rest ++ blank_line
         ++ ByLanguage.newFullBlock n2)
  ∧ ∀ st b blks b',
      ByLanguage.replaces st b = true →
      ByLanguage.lang b' = ByLanguage.lang b →
      ByLanguage.merge_step (ByLanguage.merge_loop st (b :: blks)) b'
      = ByLanguage.append_block (ByLanguage.merge_loop st (b :: blks)) b'.
Proof.
  intros Hfree Hsame Hpre Hw Hbody.
  assert (ByLanguage.merged
    (ByLanguage.merge_loop
       {| ByLanguage.merged :=
            t0 ++ fence ++ w ++ [nl] ++ body1 ++ fence ++ rest;
          ByLanguage.replacedLangs := ∅ |}
       [n1; n2])
  = t0
    ++ get_substitution (fence ++ w ++ [nl] ++ body1 ++ fence) t0 rest
         (ByLanguage.newFullBlock n1)
    ++ rest ++ blank_line ++ ByLanguage.newFullBlock n2) as Hmain.
  2:{ split; [exact Hmain|]. split.
      - intros Hd. rewrite Hmain. by rewrite get_substitution_plain.
      - intros st b blks b' _ Hb'.
        apply step_consumed. rewrite Hb'.
        cbn [ByLanguage.merge_loop fold_left].
        apply (loop_keeps blks). rewrite step_keys.
        apply get_truthy_set_true. }
  - cbn [ByLanguage.merge_loop fold_left].
    set (st0 := {| ByLanguage.merged := _; ByLanguage.replacedLangs := ∅ |}).
    assert (ByLanguage.merge_step st0 n1
            = {| ByLanguage.merged :=
                   t0 ++ get_substitution (fence ++ w ++ [nl] ++ body1 ++ fence)
                           t0 rest (ByLanguage.newFullBlock n1) ++ rest;
                 ByLanguage.replacedLangs :=
                   set_true ∅ (ByLanguage.lang n1) |}) as ->.
    { unfold ByLanguage.merge_step. cbn [ByLanguage.replacedLangs st0].
      rewrite Hfree. cbn [negb ByLanguage.merged].
      by rewrite (replace_by_lang_found _ _ _ _
                    (lang_search _ _ _ _ rest Hpre Hw Hbody)). }
    match goal with |- ByLanguage.merged (ByLanguage.merge_step ?s _) = _ =>
      destruct (step_consumed s n2) as [_ ->] end.
    + cbn [ByLanguage.replacedLangs]. rewrite Hsame.
      apply get_truthy_set_true.
    + cbn [ByLanguage.append_block ByLanguage.merged].
      by rewrite <- !app_assoc.
Qed.

Lemma first_match_only_witness :
  ByLanguage.merged
    (ByLanguage.merge_loop
       {| ByLanguage.merged :=
            js "```html\n<p>\n```\n" ++ fence ++ js "JS" ++ [nl]
              ++ js "one();\n" ++ fence ++ js "\n```js\ntwo();\n```\n";
          ByLanguage.replacedLangs := ∅ |}
       [ {| ByLanguage.lang := js "js"; ByLanguage.code := js "first();\n";
            ByLanguage.fullBlock := js "```js\nfirst();\n```" |};
         {| ByLanguage.lang := js "js"; ByLanguage.code := js "second();\n";
            ByLanguage.fullBlock := js "```js\nsecond();\n```" |} ])
  = js "```html\n<p>\n```\n```js\nfirst();\n\n```\n```js\ntwo();\n```\n\n\n```js\nsecond();\n\n```".
Proof.
  pose proof (first_match_only (js "```html\n<p>\n```\n") (js "JS")
    (js "one();\n") (js "\n```js\ntwo();\n```\n")
    {| ByLanguage.lang := js "js"; ByLanguage.code := js "first();\n";
       ByLanguage.fullBlock := js "```js\nfirst();\n```" |}
    {| ByLanguage.lang := js "js"; ByLanguage.code := js "second();\n";
       ByLanguage.fullBlock := js "```js\nsecond();\n```" |}) as H.
  destruct H as (_ & H & _).
  - reflexivity.
  - reflexivity.
  - reflexivity.
  - repeat constructor.
  - reflexivity.
  - apply H. by apply (bool_decide_unpack _).
Defined.

(** C2 at a previous text in which [js] and a line feed stand directly
    behind the closing fence of another block.  The extractor finds
    three blocks there, a py block and the js blocks [z();] and [w();],
    so the first existing js block is [z();].  The expression of
    [replaceFirstCodeBlockByLang] takes the closing fence of the py
    block for an opening fence line: the first new block is put in place
    of the text from that fence to the opening fence of [z();], which is
    no block, the py block loses its closing fence and [z();] its
    opening fence, and the body [z();] is still in the merged text.  The
    second new block is appended. *)
Lemma first_block_missed :
  let prev := js "```py\nprint(1)\n```js\nnotes\n```js\nz();\n```\n```js\nw();\n```" in
  let out := js "```js\na();\n```\n```js\nb();\n```" in
  map ByLanguage.fullBlock (ByLanguage.extractCodeBlocks (JString prev))
  = [js "```py\nprint(1)\n```"; js "```js\nz();\n```"; js "```js\nw();\n```"]
  ∧ map ByLanguage.lang (ByLanguage.extractCodeBlocks (JString prev))
    = [js "py"; js "js"; js "js"]
  ∧ map ByLanguage.newFullBlock (ByLanguage.extractCodeBlocks (JString out))
    = [js "```js\na();\n\n```"; js "```js\nb();\n\n```"]
  ∧ search true (lang_regex (js "js")) prev
    = Some (MatchResult (js "```py\nprint(1)\n") (js "```js\nnotes\n```") []
              (js "js\nz();\n```\n```js\nw();\n```"))
  ∧ ByLanguage.turns {| ByLanguage.merged := prev;
                        ByLanguage.replacedLangs := ∅ |}
      (ByLanguage.extractCodeBlocks (JString out))
    = [true; false]
  ∧ ByLanguage.output (ByLanguage.merge prev out)
    = js "```py\nprint(1)\n```js\na();\n\n```js\nz();\n```\n```js\nw();\n```\n\n```js\nb();\n\n```"
  ∧ ByLanguage.output (ByLanguage.merge prev out)
    ≠ js "```py\nprint(1)\n```js\nnotes\n```js\na();\n\n```\n```js\nw();\n```\n\n```js\nb();\n\n```".
Proof. repeat split; by vm_compute. Qed.

(** C10.  By language.  A turn of the loop marks the language of its
    block consumed whether the block was put in place or appended; so at
    most one block per language is put in place in a call, and after a
    block of a language has been processed every later block of that
    language finds the language consumed, skips the match attempt and is
    appended, so that it never replaces a block appended before it. *)
Theorem consumed_when_appended (st : ByLanguage.merge_state)
    (blk : ByLanguage.CodeBlock) (blks : list ByLanguage.CodeBlock)
    (later : ByLanguage.CodeBlock) :
  ByLanguage.replacedLangs (ByLanguage.append_block st blk)
  = ByLanguage.replacedLangs (ByLanguage.merge_step st blk)
  ∧ get_truthy (ByLanguage.replacedLangs (ByLanguage.merge_step st blk))
      (ByLanguage.lang blk) = true
  ∧ (∀ l, length (ByLanguage.in_place l st (blk :: blks)) ≤ 1)
  ∧ (ByLanguage.lang later = ByLanguage.lang blk →
     let st' := ByLanguage.merge_loop st (blk :: blks) in
     get_truthy (ByLanguage.replacedLangs st') (ByLanguage.lang later) = true
     ∧ ByLanguage.replaces st' later = false
     ∧ ByLanguage.merge_step st' later = ByLanguage.append_block st' later).
Proof.
  split; [by rewrite step_keys|].
  split; [rewrite step_keys; apply get_truthy_set_true|].
  split; [intros l; apply in_place_at_most_one|].
  intros Hl st'.
  assert (get_truthy (ByLanguage.replacedLangs st') (ByLanguage.lang later)
          = true) as H.
  { rewrite Hl. unfold st'. cbn [ByLanguage.merge_loop fold_left].
    apply (loop_keeps blks). rewrite step_keys. apply get_truthy_set_true. }
  split; [done|]. by apply step_consumed.
Qed.

Lemma consumed_when_appended_witness :
  let st := {| ByLanguage.merged := js "# notes\n";
               ByLanguage.replacedLangs := ∅ |} in
  let b1 := {| ByLanguage.lang := js "js"; ByLanguage.code := js "a();\n";
               ByLanguage.fullBlock := js "```js\na();\n```" |} in
  let b2 := {| ByLanguage.lang := js "js"; ByLanguage.code := js "b();\n";
               ByLanguage.fullBlock := js "```js\nb();\n```" |} in
  ByLanguage.lang b2 = ByLanguage.lang b1
  ∧ ByLanguage.turns st [b1; b2] = [false; false]
  ∧ ByLanguage.merge_step (ByLanguage.merge_loop st [b1]) b2
    = ByLanguage.append_block (ByLanguage.merge_loop st [b1]) b2
  ∧ ByLanguage.merged (ByLanguage.merge_loop st [b1; b2])
    = js "# notes\n\n\n```js\na();\n\n```\n\n```js\nb();\n\n```".
Proof.
  intros st b1 b2.
  destruct (consumed_when_appended st b1 [] b2) as (_ & _ & _ & H).
  destruct (H eq_refl) as (_ & _ & H3).
  split; [reflexivity|]. split; [by vm_compute|].
  split; [exact H3|]. by vm_compute.
Defined.

(** C9, as the code has it.  The reply counts the new blocks in all
    ([aiBlocksCount]), put in place or appended alike, and the
    languages it reports ([replacedLangs]) are those of all the new
    blocks of the call, appended ones included; only [__proto__], which
    an assignment cannot make a key of an object, is never reported. *)
Theorem reported_languages (previousCode fullOutput : text) :
  let blocks := ByLanguage.extractCodeBlocks (JString fullOutput) in
  let reply := ByLanguage.merge previousCode fullOutput in
  ByLanguage.aiBlocksCount reply = length blocks
  ∧ length (ByLanguage.turns
              {| ByLanguage.merged := previousCode;
                 ByLanguage.replacedLangs := ∅ |} blocks)
    = length blocks
  ∧ ∀ l, l ∈ ByLanguage.replacedLangs_keys reply
         ↔ l ≠ proto_key ∧ ∃ b, b ∈ blocks ∧ ByLanguage.lang b = l.
Proof.
  intros blocks reply. split; [done|]. split.
  - generalize {| ByLanguage.merged := previousCode;
                  ByLanguage.replacedLangs := ∅ |}.
    induction blocks as [|b bs IH]; intros st; [done|].
    simpl. by rewrite IH.
  - intros l. unfold reply, ByLanguage.merge.
    cbn [ByLanguage.replacedLangs_keys]. rewrite loop_keys.
    cbn [ByLanguage.replacedLangs]. split.
    + intros [H|H]; [|done]. by apply not_elem_of_empty in H.
    + by right.
Qed.

(** C9, as the spec has it, fails: with nothing to replace the one new
    block is appended, and its language is reported all the same. *)
Lemma reported_though_appended :
  let out := js "```js\nx\n```" in
  let reply := ByLanguage.merge [] out in
  ByLanguage.turns {| ByLanguage.merged := [];
                      ByLanguage.replacedLangs := ∅ |}
    (ByLanguage.extractCodeBlocks (JString out)) = [false]
  ∧ ByLanguage.output reply = js "\n\n```js\nx\n\n```"
  ∧ js "js" ∈ ByLanguage.replacedLangs_keys reply
  ∧ ByLanguage.aiBlocksCount reply = 1.
Proof.
  intros out reply. split; [by vm_compute|]. split; [by vm_compute|].
  split; [|by vm_compute].
  apply (bool_decide_unpack _). by vm_compute.
Qed.

(** ** The fallback for an output without blocks *)

Lemma extract_same_length (v : js_value) :
  length (ByFilename.extractCodeBlocks v)
  = length (ByLanguage.extractCodeBlocks v).
Proof.
  destruct v as [| | | |s|]; try done.
  rewrite bylang_extract_string, byfile_extract_string.
  by rewrite !length_map.
Qed.

(** C8.  When the output of the model holds no block that can be
    extracted, the merged text is the previous text, then the blank-line
    separator of every append, then the whole raw output; nothing in the
    previous text is replaced, the count of blocks is 0 and no language
    is reported.  So for both variants, for the merge and for the reply
    of the handler. *)
Theorem whole_output_fallback (req : request) (fullOutput : text) :
  ByLanguage.extractCodeBlocks (JString fullOutput) = [] →
  method req = "POST"%string →
  (∃ p, prompt req = JString p ∧ p ≠ []) →
  is_blank fullOutput = false →
  let previous := default [] (previousCode req) in
  ByLanguage.merge previous fullOutput
  = {| ByLanguage.output := previous ++ blank_line ++ fullOutput;
       ByLanguage.aiRaw := fullOutput;
       ByLanguage.aiBlocksCount := 0;
       ByLanguage.replacedLangs_keys := ∅ |}
  ∧ ByFilename.merge previous fullOutput
    = {| ByFilename.output := previous ++ blank_line ++ fullOutput;
         ByFilename.aiRaw := fullOutput;
         ByFilename.aiBlocksCount := 0 |}
  ∧ ByLanguage.handler req (ModelReturns (Some fullOutput))
    = ByLanguage.Status200 (ByLanguage.merge previous fullOutput)
  ∧ ByFilename.handler req (ModelReturns (Some fullOutput))
    = ByFilename.Status200 (ByFilename.merge previous fullOutput).
Proof.
  intros Hnone Hpost (p & Hp & Hne) Hblank previous.
  assert (ByFilename.extractCodeBlocks (JString fullOutput) = []) as Hnone'.
  { apply length_zero_iff_nil. rewrite extract_same_length.
    by rewrite Hnone. }
  split; [|split; [|split]].
  - unfold ByLanguage.merge. by rewrite Hnone.
  - unfold ByFilename.merge. by rewrite Hnone'.
  - unfold ByLanguage.handler. rewrite Hpost, Hp.
    change (String.eqb "POST" "POST") with true.
    destruct p; [done|]. cbn [default from_option id negb].
    by rewrite Hblank.
  - unfold ByFilename.handler. rewrite Hpost, Hp.
    change (String.eqb "POST" "POST") with true.
    destruct p; [done|]. cbn [default from_option id truthy negb].
    by rewrite Hblank.
Qed.

Lemma whole_output_fallback_witness :
  let req := {| method := "POST"; prompt := JString (js "add a page");
                previousCode := Some (js "```js\nold();\n```") |} in
  let out := js "Sure, here's your code: done." in
  ByLanguage.extractCodeBlocks (JString out) = []
  ∧ ByLanguage.handler req (ModelReturns (Some out))
    = ByLanguage.Status200
        {| ByLanguage.output :=
             js "```js\nold();\n```\n\nSure, here's your code: done.";
           ByLanguage.aiRaw := out;
           ByLanguage.aiBlocksCount := 0;
           ByLanguage.replacedLangs_keys := ∅ |}.
Proof.
  intros req out.
  assert (Hnone : ByLanguage.extractCodeBlocks (JString out) = [])
    by reflexivity.
  split; [exact Hnone|].
  assert (Hp : ∃ p, prompt req = JString p ∧ p ≠ []).
  { exists (js "add a page"). split; [reflexivity|discriminate]. }
  destruct (whole_output_fallback req out Hnone eq_refl Hp eq_refl)
    as (H1 & _ & H3 & _).
  rewrite H3, H1. reflexivity.
Defined.

(** ** Replacement text *)

(** C5 at a new block whose body holds a dollar pattern.  The block of
    the previous text is found and replaced, but [String.prototype.replace]
    expands [$&] in the new block to the matched text (and [$$] to one
    dollar), so the text put in place is not the new fenced block. *)
Lemma dollar_patterns_expanded :
  let prev := js "```js\nold\n```" in
  let out := js "```js\ncost = '$&'\n```" in
  let blk := {| ByLanguage.lang := js "js"; ByLanguage.code := js "cost = '$&'\n";
                ByLanguage.fullBlock := out |} in
  ByLanguage.extractCodeBlocks (JString out) = [blk]
  ∧ ByLanguage.newFullBlock blk = js "```js\ncost = '$&'\n\n```"
  ∧ ByLanguage.replaceFirstCodeBlockByLang prev (js "js")
      (ByLanguage.newFullBlock blk)
    = (js "```js\ncost = '```js\nold\n```'\n\n```", true)
  ∧ ByLanguage.output (ByLanguage.merge prev out)
    = js "```js\ncost = '```js\nold\n```'\n\n```"
  ∧ ByLanguage.output (ByLanguage.merge prev out)
    ≠ ByLanguage.newFullBlock blk
  ∧ ByFilename.output
      (ByFilename.merge (js "```js\n// file: a.js\nold\n```")
         (js "```js\n// file: a.js\nprice = '$$5'\n```"))
    = js "```js\n// file: a.js\nprice = '$5'\n\n```".
Proof. repeat split; by vm_compute. Qed.

(** ** Other blocks *)

(** By language the other blocks stay: with a js block and an html block
    in the previous text and one new js block, the html block is
    untouched. *)
Example bylang_html_untouched :
  ByLanguage.output
    (ByLanguage.merge (js "```js\na();\n```\n```html\n<p>\n```")
       (js "```js\nb();\n```"))
  = js "```js\nb();\n\n```\n```html\n<p>\n```".
Proof. by vm_compute. Qed.

(** C1 at a previous text whose first block is not the one the new block
    names.  By filename, the expression starts at the first opening
    fence line from which the marker can be reached and runs over every
    fence in between: the css block, which the new block does not name,
    is gone from the merged text. *)
Lemma filename_replace_swallows_blocks :
  let prev := js "```css\nbody{}\n```\n\n```js\n// file: app.js\nold()\n```" in
  let out := js "```js\n// file: app.js\nnew()\n```" in
  map ByFilename.fullBlock (ByFilename.extractCodeBlocks (JString prev))
  = [js "```css\nbody{}\n```"; js "```js\n// file: app.js\nold()\n```"]
  ∧ map ByFilename.filename (ByFilename.extractCodeBlocks (JString out))
    = [Some (js "app.js")]
  ∧ search true (filename_regex (js "app.js")) prev
    = Some (MatchResult [] prev [] [])
  ∧ ByFilename.output (ByFilename.merge prev out)
    = js "```js\n// file: app.js\nnew()\n\n```".
Proof. repeat split; by vm_compute. Qed.

(** ** The filename marker *)






(** ** Replacement by filename *)

Lemma syntax_char_backslash (c : ascii) :
  is_syntax_char c = false → ascii_eqb c backslash = false.
Proof.
  intros H. apply ascii_eqb_neq. intros ->. by vm_compute in H.
Qed.

(** The escaped filename stands for the characters of the filename. *)
Lemma pattern_chars_escape (filename : text) :
  pattern_chars (escape_regexp filename) = filename.
Proof.
  induction filename as [|c f IH]; [done|].
  cbn [escape_regexp flat_map]. fold (escape_regexp f).
  destruct (is_syntax_char c) eqn:Hc.
  - cbn [app pattern_chars]. rewrite ascii_eqb_refl. by rewrite IH.
  - cbn [app]. destruct (escape_regexp f) as [|b s] eqn:He.
    + by rewrite <- IH.
    + cbn [pattern_chars]. rewrite (syntax_char_backslash c Hc).
      f_equal. exact IH.
Qed.

Lemma filename_regex_shape (filename m : text) (caps : list text) :
  matches true (filename_regex filename) m caps →
  ∃ w x f ws name y,
    m = fence ++ w ++ [nl] ++ x ++ f ++ ws ++ name ++ y ++ fence
    ∧ w ≠ [] ∧ Forall (λ c, is_word_or_dash c = true) w
    ∧ Forall2 (λ p c, char_matches true p c = true) file_colon f
    ∧ Forall (λ c, is_space c = true) ws
    ∧ Forall2 (λ p c, char_matches true p c = true) filename name.
Proof.
  unfold filename_regex. rewrite pattern_chars_escape. simpl. intros H.
  destruct H as (? & ? & ? & ? & -> & -> & [Hf ->] & H).
  destruct H as (w & ? & ? & ? & -> & -> & (Hw & Hl & ->) & H).
  destruct H as (? & ? & ? & ? & -> & -> & [Hn ->] & H).
  destruct H as (gap & ? & ? & ? & -> & -> & (_ & _ & ->) & H).
  destruct H as (f & ? & ? & ? & -> & -> & [Hfile ->] & H).
  destruct H as (ws & ? & ? & ? & -> & -> & (Hws & _ & ->) & H).
  destruct H as (name & ? & ? & ? & -> & -> & [Hname ->] & H).
  destruct H as (gap' & ? & ? & ? & -> & -> & (_ & _ & ->) & [Hf' ->]).
  apply (fence_chars true) in Hf as ->, Hf' as ->.
  apply (nl_chars true) in Hn as ->.
  exists w, gap, f, ws, name, gap'. repeat split; try done.
  intros ->. simpl in Hl. lia.
Qed.

Lemma is_space_canonicalize (c : ascii) :
  is_space (canonicalize c) = is_space c.
Proof. destruct c as [[] [] [] [] [] [] [] []]; reflexivity. Qed.

Lemma is_space_match (p c : ascii) :
  char_matches true p c = true → is_space c = is_space p.
Proof.
  intros H. apply ascii_eqb_eq in H.
  by rewrite <- (is_space_canonicalize c), <- H, is_space_canonicalize.
Qed.

Lemma match_chars_head_fail (ic : bool) (p c : ascii) (cs s : text) :
  char_matches ic p c = false → match_chars ic (p :: cs) (c :: s) = None.
Proof. intros H. simpl. by rewrite H. Qed.

Lemma closable_suffix (a b : text) :
  closable (a ++ b) = true → closable b = true.
Proof.
  unfold closable, fence_free. rewrite !andb_true_iff, !negb_true_iff.
  intros [H1 H2]. split; [by apply has_fence_suffix in H1|].
  destruct b as [|c b]; [done|].
  by rewrite ends_with_backtick_suffix in H2.
Qed.

Lemma filename_here (filename w cpre f ws name rest post : text) :
  w ≠ [] → Forall (λ c, is_word_or_dash c = true) w →
  Forall (λ c, char_matches true "f" c = false) cpre →
  Forall2 (λ p c, char_matches true p c = true) file_colon f →
  Forall (λ c, is_space c = true) ws →
  match filename with c :: _ => is_space c = false | [] => False end →
  Forall2 (λ p c, char_matches true p c = true) filename name →
  closable rest = true →
  match_here true (filename_regex filename)
    (fence ++ w ++ [nl] ++ cpre ++ f ++ ws ++ name ++ rest ++ fence ++ post)
  = Some (fence ++ w ++ [nl] ++ cpre ++ f ++ ws ++ name ++ rest ++ fence,
          [], post).
Proof.
  intros Hw Hword Hcpre Hf Hws Hhead Hname Hrest.
  unfold match_here, filename_regex. rewrite pattern_chars_escape.
  cbn [run]. rewrite match_chars_fence_app.
  apply (rep_greedy_longest is_word_or_dash 1 _ w
           ([nl] ++ cpre ++ f ++ ws ++ name ++ rest ++ fence ++ post) []);
    [done|destruct w; [done|simpl; lia]| |done].
  cbn [run app]. rewrite match_chars_nl_app.
  rewrite (rep_lazy_skip is_any 0 _ cpre
             (f ++ ws ++ name ++ rest ++ fence ++ post) []);
    [|apply all_any|].
  2:{ intros a1 a2 -> Hne. unfold stop_here. cbn [Nat.leb].
      destruct a2 as [|c a2]; [done|].
      apply Forall_app in Hcpre as [_ Hc]. apply Forall_cons in Hc as [Hc _].
      change file_colon with ("f"%char :: list_ascii_of_string "ile:").
      cbn [app]. by rewrite (match_chars_head_fail true "f" c _ _ Hc). }
  apply rep_lazy_stop. unfold stop_here. cbn [Nat.leb].
  rewrite (match_chars_complete true file_colon f _ Hf).
  apply (rep_greedy_longest is_space 0 _ ws
           (name ++ rest ++ fence ++ post) []); [done|lia| |].
  2:{ destruct Hname as [|p c ?? Hpc _]; [done|].
      cbn [app]. by rewrite (is_space_match p c Hpc). }
  rewrite (match_chars_complete true filename name _ Hname).
  rewrite (rep_lazy_skip is_any 0 _ rest (fence ++ post) []);
    [|apply all_any|].
  2:{ intros a1 a2 -> Hne. unfold stop_here. cbn [Nat.leb].
      rewrite match_chars_fence_none; [done|].
      by apply (closable_first_fence a1 a2). }
  apply rep_lazy_stop. unfold stop_here. cbn [Nat.leb].
  by rewrite match_chars_fence_app.
Qed.

Lemma filename_here_no_fence (filename s : text) :
  starts_with fence s = false →
  match_here true (filename_regex filename) s = None.
Proof.
  intros H. unfold match_here, filename_regex. cbn [run].
  by rewrite match_chars_fence_none.
Qed.

Lemma filename_here_backtick (filename s : text) :
  match_here true (filename_regex filename) (fence ++ backtick :: s) = None.
Proof.
  unfold match_here, filename_regex. cbn [run].
  by rewrite match_chars_fence_app.
Qed.

Lemma filename_search (filename pre w cpre f ws name rest post : text) :
  fence_free pre = true →
  w ≠ [] → Forall (λ c, is_word_or_dash c = true) w →
  Forall (λ c, char_matches true "f" c = false) cpre →
  Forall2 (λ p c, char_matches true p c = true) file_colon f →
  Forall (λ c, is_space c = true) ws →
  match filename with c :: _ => is_space c = false | [] => False end →
  Forall2 (λ p c, char_matches true p c = true) filename name →
  closable rest = true →
  search true (filename_regex filename)
    (pre ++ fence ++ w ++ [nl] ++ cpre ++ f ++ ws ++ name ++ rest
       ++ fence ++ post)
  = Some (MatchResult pre
            (fence ++ w ++ [nl] ++ cpre ++ f ++ ws ++ name ++ rest ++ fence)
            [] post).
Proof.
  intros Hpre Hw Hword Hcpre Hf Hws Hhead Hname Hrest.
  apply search_intro; [|by apply filename_here].
  intros a b -> Hb.
  destruct (fence_free_start a b
              (w ++ [nl] ++ cpre ++ f ++ ws ++ name ++ rest ++ fence ++ post)
              Hpre Hb) as [H|[s' H]].
  - by apply filename_here_no_fence.
  - rewrite H. apply filename_here_backtick.
Qed.

(** What a successful replacement by filename changes: one span, from
    an opening fence line over any text, fences included, to the marker
    and from there to the next fence. *)
Lemma replace_by_filename_frame (base name newBlock updated : text) :
  ByFilename.replaceBlockByFilename base (Some name) newBlock
  = (updated, true) →
  ∃ pre w gap f ws name' gap' post,
    base = pre ++ (fence ++ w ++ [nl] ++ gap ++ f ++ ws ++ name' ++ gap'
                     ++ fence) ++ post
    ∧ Forall2 (λ p c, char_matches true p c = true) file_colon f
    ∧ Forall (λ c, is_space c = true) ws
    ∧ Forall2 (λ p c, char_matches true p c = true) name name'
    ∧ updated
      = pre
        ++ get_substitution
             (fence ++ w ++ [nl] ++ gap ++ f ++ ws ++ name' ++ gap' ++ fence)
             pre post newBlock
        ++ post.
Proof.
  unfold ByFilename.replaceBlockByFilename, test, replace_first.
  destruct name as [|c name]; [done|].
  destruct (search true (filename_regex (c :: name)) base) as [mr|] eqn:Hs;
    [|done].
  intros [= <-]. apply search_split in Hs as [Hb Hm].
  apply filename_regex_shape in Hm
    as (w & gap & f & ws & name' & gap' & Hall & _ & _ & Hf & Hws & Hname).
  exists (m_pre mr), w, gap, f, ws, name', gap', (m_post mr).
  by rewrite <- Hall.
Qed.

Lemma byfile_step_append (merged : text) (blk : ByFilename.CodeBlock) :
  ByFilename.has_filename blk = false →
  ByFilename.merge_step merged blk
  = merged ++ blank_line ++ ByFilename.newFullBlock blk.
Proof. intros H. unfold ByFilename.merge_step. by rewrite H. Qed.

Lemma byfile_step_missing (merged name : text) (blk : ByFilename.CodeBlock) :
  ByFilename.filename blk = Some name →
  search true (filename_regex name) merged = None →
  ByFilename.merge_step merged blk
  = merged ++ blank_line ++ ByFilename.newFullBlock blk.
Proof.
  intros Hn Hs. unfold ByFilename.merge_step, ByFilename.has_filename.
  rewrite Hn. destruct name as [|c name]; [done|].
  unfold ByFilename.replaceBlockByFilename, test. by rewrite Hs.
Qed.

Lemma byfile_step_found (merged name : text) (blk : ByFilename.CodeBlock)
    (mr : match_result) :
  ByFilename.filename blk = Some name → name ≠ [] →
  search true (filename_regex name) merged = Some mr →
  ByFilename.merge_step merged blk
  = m_pre mr
    ++ get_substitution (m_all mr) (m_pre mr) (m_post mr)
         (ByFilename.newFullBlock blk)
    ++ m_post mr.
Proof.
  intros Hn Hne Hs. unfold ByFilename.merge_step, ByFilename.has_filename.
  rewrite Hn. destruct name as [|c name]; [done|].
  unfold ByFilename.replaceBlockByFilename, test, replace_first.
  by rewrite Hs.
Qed.

(** C6, as the code has it.  By filename.  A new block without filename,
    or with an empty one, is appended.  A new block with a filename is
    appended when no place of the text holds [file:], white space or
    none, and that filename, all compared without regard to case.  And
    when the first fenced block of the text carries in its body, behind
    text without the letter f, the marker [file:], white space or none,
    the filename up to case and the end of the line, the new block
    takes the place of the full span of that block. *)
Theorem replace_by_filename (merged : text) (blk : ByFilename.CodeBlock) :
  (ByFilename.has_filename blk = false →
   ByFilename.merge_step merged blk
   = merged ++ blank_line ++ ByFilename.newFullBlock blk)
  ∧ (∀ name,
       ByFilename.filename blk = Some name →
       (∀ a f ws name' b,
          merged = a ++ f ++ ws ++ name' ++ b →
          Forall2 (λ p c, char_matches true p c = true) file_colon f →
          Forall (λ c, is_space c = true) ws →
          ¬ Forall2 (λ p c, char_matches true p c = true) name name') →
       ByFilename.merge_step merged blk
       = merged ++ blank_line ++ ByFilename.newFullBlock blk)
  ∧ (∀ name pre w cpre f ws name' rest post,
       ByFilename.filename blk = Some name →
       match name with c :: _ => is_space c = false | [] => False end →
       merged = pre ++ fence ++ w ++ [nl] ++ cpre ++ f ++ ws ++ name'
                  ++ (nl :: rest) ++ fence ++ post →
       fence_free pre = true →
       w ≠ [] → Forall (λ c, is_word_or_dash c = true) w →
       Forall (λ c, char_matches true "f" c = false) cpre →
       Forall2 (λ p c, char_matches true p c = true) file_colon f →
       Forall (λ c, is_space c = true) ws →
       Forall2 (λ p c, char_matches true p c = true) name name' →
       closable (cpre ++ f ++ ws ++ name' ++ nl :: rest) = true →
       ByFilename.merge_step merged blk
       = pre
         ++ get_substitution
              (fence ++ w ++ [nl] ++ cpre ++ f ++ ws ++ name'
                 ++ (nl :: rest) ++ fence)
              pre post (ByFilename.newFullBlock blk)
         ++ post).
Proof.
  split; [apply byfile_step_append|]. split.
  - intros name Hn Hno. apply (byfile_step_missing _ name); [done|].
    destruct (search true (filename_regex name) merged) as [mr|] eqn:Hs;
      [|done].
    apply search_split in Hs as [Hm Hs].
    apply filename_regex_shape in Hs
      as (w & gap & f & ws & name' & gap' & Hall & _ & _ & Hf & Hws & Hname).
    destruct (Hno (m_pre mr ++ fence ++ w ++ [nl] ++ gap) f ws name'
                (gap' ++ fence ++ m_post mr)); try done.
    by rewrite Hm, Hall, <- !app_assoc.
  - intros name pre w cpre f ws name' rest post Hn Hhead -> Hpre Hw Hword
      Hcpre Hf Hws Hname Hbody.
    assert (closable (nl :: rest) = true) as Hrest.
    { apply (closable_suffix (cpre ++ f ++ ws ++ name')).
      by rewrite <- !app_assoc. }
    pose proof (filename_search name pre w cpre f ws name' (nl :: rest) post
                  Hpre Hw Hword Hcpre Hf Hws Hhead Hname Hrest) as Hs.
    rewrite (byfile_step_found _ name blk _ Hn ltac:(by destruct name) Hs).
    done.
Qed.

Lemma replace_by_filename_witness :
  let blk := {| ByFilename.lang := js "js";
                ByFilename.code := js "// file: src/app.js\nnew();\n";
                ByFilename.filename := Some (js "src/app.js");
                ByFilename.fullBlock :=
                  js "```js\n// file: src/app.js\nnew();\n```" |} in
  ByFilename.merge_step
    (js "# app\n```js\n// file: src/app.js\nold();\n```\nbye") blk
  = js "# app\n```js\n// file: src/app.js\nnew();\n\n```\nbye".
Proof.
  intros blk.
  destruct (replace_by_filename
              (js "# app\n```js\n// file: src/app.js\nold();\n```\nbye") blk)
    as (_ & _ & H).
  rewrite (H (js "src/app.js") (js "# app\n") (js "js") (js "// ")
             (js "file:") (js " ") (js "src/app.js") (js "old();\n")
             (js "\nbye")).
  - reflexivity.
  - reflexivity.
  - reflexivity.
  - reflexivity.
  - reflexivity.
  - discriminate.
  - repeat constructor.
  - repeat constructor.
  - repeat constructor.
  - repeat constructor.
  - repeat constructor.
  - reflexivity.
Defined.

(** C6, as the spec has it, fails: the marker of the previous text and
    the filename of the new block differ in case, and the new block
    replaces the block all the same instead of being appended. *)
Lemma filename_match_ignores_case :
  let prev := js "```js\n// file: src/App.js\nold()\n```" in
  let out := js "```js\n// file: src/app.js\nnew()\n```" in
  map ByFilename.filename (ByFilename.extractCodeBlocks (JString prev))
  = [Some (js "src/App.js")]
  ∧ map ByFilename.filename (ByFilename.extractCodeBlocks (JString out))
    = [Some (js "src/app.js")]
  ∧ js "src/App.js" ≠ js "src/app.js"
  ∧ ByFilename.output (ByFilename.merge prev out)
    = js "```js\n// file: src/app.js\nnew()\n\n```"
  ∧ ByFilename.output (ByFilename.merge prev out)
    ≠ prev ++ blank_line ++ js "```js\n// file: src/app.js\nnew()\n\n```".
Proof. repeat split; by vm_compute. Qed.

(** * Further properties of the extractor *)

(** A lazy quantifier stops at the first place where its continuation
    succeeds. *)
Lemma rep_lazy_first {R : Type} (cls : ascii → bool) (min : nat)
    (k : text → text → option R) (s acc : text) (r : R) :
  rep_lazy cls min k acc s = Some r →
  ∃ a b, s = a ++ b
    ∧ stop_here min k (acc ++ a) b = Some r
    ∧ ∀ a1 a2, a = a1 ++ a2 → a2 ≠ [] →
        stop_here min k (acc ++ a1) (a2 ++ b) = None.
Proof.
  revert acc. induction s as [|c s IH]; intros acc H; simpl in H.
  - destruct (stop_here min k acc []) as [r'|] eqn:Hs; [|done].
    exists [], []. rewrite (app_nil_r acc). split; [done|].
    split; [congruence|].
    intros a1 a2 Ha Hne. symmetry in Ha. by apply app_eq_nil in Ha as [_ ->].
  - destruct (stop_here min k acc (c :: s)) as [r'|] eqn:Hs.
    + exists [], (c :: s). rewrite (app_nil_r acc). split; [done|].
      split; [congruence|].
      intros a1 a2 Ha Hne. symmetry in Ha. by apply app_eq_nil in Ha as [_ ->].
    + destruct (cls c); [|done].
      destruct (IH _ H) as (a & b & -> & Hstop & Hearly).
      exists (c :: a), b. rewrite <- app_assoc in Hstop.
      split; [done|]. split; [done|].
      intros a1 a2 Ha Hne. destruct a1 as [|c' a1]; simpl in Ha.
      * subst a2. by rewrite app_nil_r.
      * simplify_eq. specialize (Hearly a1 a2 eq_refl Hne).
        by rewrite <- app_assoc in Hearly.
Qed.

Lemma has_fence_inv (s : text) :
  has_fence s = true → ∃ a r, s = a ++ fence ++ r.
Proof.
  induction s as [|c s IH]; simpl; [done|].
  intros H. apply orb_true_iff in H as [H|H].
  - apply (starts_with_inv fence (c :: s)) in H as [r ->]. by exists [], r.
  - destruct (IH H) as (a & r & ->). by exists (c :: a), r.
Qed.

(** A text after which no fence begins before its end is closable. *)
Lemma no_early_fence_closable (body rest : text) :
  (∀ a1 a2, body = a1 ++ a2 → a2 ≠ [] →
     match_chars false fence (a2 ++ fence ++ rest) = None) →
  closable body = true.
Proof.
  intros H. unfold closable, fence_free.
  apply andb_true_iff. split; apply negb_true_iff.
  - destruct (has_fence body) eqn:Hf; [|done].
    apply has_fence_inv in Hf as (a & r & ->).
    specialize (H a (fence ++ r) eq_refl ltac:(done)).
    by rewrite <- app_assoc, match_chars_fence_app in H.
  - unfold ends_with_backtick. destruct (rev body) as [|c l] eqn:Hr; [done|].
    destruct (ascii_eqb c backtick) eqn:Hc; [|done].
    apply ascii_eqb_eq in Hc as ->.
    apply (f_equal (@rev ascii)) in Hr. rewrite rev_involutive in Hr.
    simpl in Hr. specialize (H (rev l) [backtick] Hr ltac:(done)).
    change ([backtick] ++ fence ++ rest) with (fence ++ backtick :: rest) in H.
    by rewrite match_chars_fence_app in H.
Qed.

(** What a match of the block expression at the head of a text is. *)
Lemma block_here_inv (s m : text) (caps : list text) (rest : text) :
  match_here false block_regex s = Some (m, caps, rest) →
  ∃ w body,
    m = fence ++ w ++ [nl] ++ body ++ fence ∧ caps = [w; body]
    ∧ w ≠ [] ∧ Forall (λ c, is_word c = true) w ∧ closable body = true.
Proof.
  unfold match_here, block_regex. cbn [run]. intros H.
  destruct (match_chars false fence s) as [[m1 r1]|] eqn:H1; [|done].
  apply match_chars_sound in H1 as [-> Hf].
  apply (fence_chars false) in Hf as ->.
  apply rep_greedy_sound in H as (w & b & -> & Hw & Hl & H).
  cbn [app] in H, Hl.
  destruct (match_chars false [nl] b) as [[m3 r3]|] eqn:H3; [|done].
  apply match_chars_sound in H3 as [-> Hn].
  apply (nl_chars false) in Hn as ->.
  apply rep_lazy_first in H as (body & b' & -> & Hstop & Hearly).
  unfold stop_here in Hstop. cbn [Nat.leb app] in Hstop.
  destruct (match_chars false fence b') as [[m5 r5]|] eqn:H5; [|done].
  apply match_chars_sound in H5 as [-> Hf].
  apply (fence_chars false) in Hf as ->. simplify_eq.
  exists w, body. repeat split; try done.
  - intros ->. simpl in Hl. lia.
  - apply (no_early_fence_closable body rest). intros a1 a2 Hb Hne.
    specialize (Hearly a1 a2 Hb Hne).
    unfold stop_here in Hearly. cbn [Nat.leb app] in Hearly.
    by destruct (match_chars false fence (a2 ++ fence ++ rest)) as [[??]|].
Qed.

Lemma block_matches (w body : text) :
  w ≠ [] → Forall (λ c, is_word c = true) w →
  matches false block_regex (fence ++ w ++ [nl] ++ body ++ fence) [w; body].
Proof.
  intros Hw Hword. simpl.
  exists fence, (w ++ [nl] ++ body ++ fence), [], [w; body].
  repeat split; try done.
  { unfold fence. repeat constructor. }
  exists w, ([nl] ++ body ++ fence), [w], [body]. repeat split; try done.
  { exists []. repeat split; try done. destruct w; [done|simpl; lia]. }
  exists [nl], (body ++ fence), [], [body]. repeat split; try done.
  { repeat constructor. }
  exists body, fence, [body], []. repeat split; try done.
  - exists []. repeat split; try done; [apply all_any|lia].
  - unfold fence. repeat constructor.
Qed.

(** Every text is fenced blocks with text in between, and the [exec]
    loop finds exactly them. *)
Lemma exec_all_layout {B : Type} (g : match_result → B) (h : fenced → B) :
  (∀ f pre post,
     g (MatchResult pre (fenced_span f) [f_lang f; f_body f] post) = h f) →
  ∀ n s, length s < n →
    ∃ blocks tail,
      render blocks tail = s
      ∧ map g (exec_all false block_regex n s) = map h blocks
      ∧ Forall (λ f, f_lang f ≠ []
                     ∧ Forall (λ c, is_word c = true) (f_lang f)
                     ∧ closable (f_body f) = true
                     ∧ search false block_regex (f_before f) = None) blocks
      ∧ search false block_regex tail = None.
Proof.
  intros Hg. induction n as [|n IH]; intros s Hn; [lia|].
  simpl. destruct (search false block_regex s) as [mr|] eqn:Hs.
  - destruct (search_sound _ _ _ _ Hs) as (Hsplit & Hhere & Hleft).
    apply block_here_inv in Hhere
      as (w & body & Hall & Hcaps & Hw & Hword & Hbody).
    destruct (IH (m_post mr)) as (blocks & tail & Hr & Hm & Hf & Ht).
    { rewrite Hsplit, Hall, !length_app in Hn. simpl in Hn. lia. }
    exists ({| f_before := m_pre mr; f_lang := w; f_body := body |} :: blocks),
      tail.
    split; [|split; [|split]]; try done.
    + cbn [render fold_right]. fold (render blocks tail).
      unfold fenced_span. cbn [f_before f_lang f_body].
      by rewrite Hr, Hsplit, Hall.
    + cbn [map]. rewrite Hm. f_equal.
      rewrite <- (Hg {| f_before := m_pre mr; f_lang := w; f_body := body |}
                    (m_pre mr) (m_post mr)).
      unfold fenced_span. cbn [f_before f_lang f_body].
      rewrite <- Hall, <- Hcaps. by destruct mr.
    + constructor; [|done]. cbn [f_before f_lang f_body].
      repeat split; try done.
      destruct (search false block_regex (m_pre mr)) as [mr'|] eqn:Hp;
        [|done].
      destruct (search_sound _ _ _ _ Hp) as (Hsplit' & Hhere' & _).
      apply match_here_sound in Hhere' as [_ Hm'].
      pose proof (match_here_complete false block_regex (m_all mr')
                    (m_groups mr')
                    (m_post mr' ++ m_all mr ++ m_post mr) Hm') as Hc.
      destruct Hc. rewrite app_assoc.
      apply (Hleft (m_pre mr') (m_all mr' ++ m_post mr')); [done|].
      intros Hnil. apply app_eq_nil in Hnil as [Hnil _].
      by apply block_regex_nonempty in Hm'.
  - exists [], s. by repeat split.
Qed.

Lemma exec_all_elem_here (ic : bool) (r : regex) (n : nat) (s : text)
    (mr : match_result) :
  In mr (exec_all ic r n s) →
  match_here ic r (m_all mr ++ m_post mr)
  = Some (m_all mr, m_groups mr, m_post mr).
Proof.
  revert s. induction n as [|n IH]; intros s H; simpl in H; [done|].
  destruct (search ic r s) as [m0|] eqn:Hs; [|done].
  destruct H as [->|H]; [|by apply (IH _ H)].
  by destruct (search_sound _ _ _ _ Hs) as (_ & ? & _).
Qed.

Lemma bylang_extract_nil (s : text) :
  ByLanguage.extractCodeBlocks (JString s) = []
  ↔ search false block_regex s = None.
Proof.
  rewrite bylang_extract_string. simpl.
  by destruct (search false block_regex s).
Qed.

Lemma bylang_block_inv (doc : text) (b : ByLanguage.CodeBlock) :
  b ∈ ByLanguage.extractCodeBlocks (JString doc) →
  ∃ w, ByLanguage.lang b = toLowerCase w
       ∧ w ≠ [] ∧ Forall (λ c, is_word c = true) w
       ∧ closable (ByLanguage.code b) = true.
Proof.
  rewrite bylang_extract_string, list_elem_of_In, in_map_iff.
  intros (mr & <- & H). apply exec_all_elem_here, block_here_inv in H
    as (w & body & _ & Hg & Hw & Hword & Hbody).
  exists w. unfold ByLanguage.block_of, group. rewrite Hg. by simpl.
Qed.

Lemma lower_char_word (c : ascii) :
  is_word c = true →
  is_word (lower_char c) = true ∧ lower_char (lower_char c) = lower_char c.
Proof.
  destruct c as [[] [] [] [] [] [] [] []]; vm_compute; intros; by split.
Qed.

Lemma toLowerCase_word (w : text) :
  Forall (λ c, is_word c = true) w →
  Forall (λ c, is_word c = true) (toLowerCase w)
  ∧ toLowerCase (toLowerCase w) = toLowerCase w.
Proof.
  induction 1 as [|c w Hc _ [IH1 IH2]]; [done|].
  destruct (lower_char_word c Hc) as [H1 H2]. simpl. split.
  - by constructor.
  - by rewrite H2, IH2.
Qed.

Lemma has_fence_snoc (s : text) (c : ascii) :
  has_fence s = false → c ≠ backtick → has_fence (s ++ [c]) = false.
Proof.
  intros H Hc. apply ascii_eqb_neq in Hc.
  assert (ascii_eqb backtick c = false) as Hc'.
  { apply ascii_eqb_neq. intros <-. by rewrite ascii_eqb_refl in Hc. }
  induction s as [|x s IH]; [simpl; by rewrite Hc'|].
  cbn [has_fence app] in *. apply orb_false_iff in H as [H1 H2].
  apply orb_false_iff. split; [|by apply IH].
  destruct s as [|y [|z s]]; simpl in *.
  - by rewrite andb_false_r.
  - by rewrite Hc', !andb_false_r.
  - done.
Qed.

Lemma closable_line (body : text) :
  closable body = true → closable (body ++ [nl]) = true.
Proof.
  unfold closable, fence_free. rewrite !andb_true_iff, !negb_true_iff.
  intros [H _]. split.
  - by apply has_fence_snoc.
  - unfold ends_with_backtick. by rewrite rev_app_distr.
Qed.

(** X1.  A text yields no block exactly when no place of it holds an
    opening fence line (a fence, word characters, a line feed) with a
    fence somewhere behind it; so does in particular every text without
    a fence.  The two variants yield no block on the same texts. *)
Theorem no_block_iff (s : text) :
  (fence_free s = true →
   ByLanguage.extractCodeBlocks (JString s) = []
   ∧ ByFilename.extractCodeBlocks (JString s) = [])
  ∧ (ByLanguage.extractCodeBlocks (JString s) = []
     ↔ ¬ ∃ pre w body post,
           s = pre ++ fence ++ w ++ [nl] ++ body ++ fence ++ post
           ∧ w ≠ [] ∧ Forall (λ c, is_word c = true) w)
  ∧ (ByFilename.extractCodeBlocks (JString s) = []
     ↔ ByLanguage.extractCodeBlocks (JString s) = []).
Proof.
  assert (ByFilename.extractCodeBlocks (JString s) = []
          ↔ ByLanguage.extractCodeBlocks (JString s) = []) as Hsame.
  { rewrite <- !length_zero_iff_nil. by rewrite extract_same_length. }
  split; [|split; [|done]].
  - intros H. rewrite Hsame. split; apply bylang_extract_nil;
      by apply block_search_none.
  - rewrite bylang_extract_nil. split.
    + intros Hs (pre & w & body & post & -> & Hw & Hword).
      apply (search_none _ _ _ Hs pre (fence ++ w ++ [nl] ++ body ++ fence)
               [w; body] post).
      * by rewrite <- !app_assoc.
      * by apply block_matches.
    + intros Hno.
      destruct (search false block_regex s) as [mr|] eqn:Hs; [|done].
      destruct Hno. apply search_split in Hs as [-> Hm].
      apply block_regex_shape in Hm as (w & body & -> & _ & Hw & Hword).
      exists (m_pre mr), w, body, (m_post mr).
      by rewrite <- !app_assoc.
Qed.

Lemma no_block_iff_witness :
  fence_free (js "Sure, here is `code`: ``done``.") = true
  ∧ ByLanguage.extractCodeBlocks
      (JString (js "Sure, here is `code`: ``done``.")) = []
  ∧ ByFilename.extractCodeBlocks
      (JString (js "Sure, here is `code`: ``done``.")) = [].
Proof.
  split; [reflexivity|].
  exact (proj1 (no_block_iff (js "Sure, here is `code`: ``done``.")) eq_refl).
Defined.

(** X2.  Every text is laid out by the extractor as blocks with text in
    between: the raw spans of the extracted blocks lie in the text in
    the order of extraction, one after the other, without overlap; each
    has a language token of word characters and a body that holds no
    fence and ends in no backtick; and neither the text between the
    blocks nor the text behind the last one holds a block. *)
Theorem extract_layout (s : text) :
  ∃ blocks tail,
    render blocks tail = s
    ∧ ByLanguage.extractCodeBlocks (JString s)
      = map (λ f, {| ByLanguage.lang := toLowerCase (f_lang f);
                     ByLanguage.code := f_body f;
                     ByLanguage.fullBlock := fenced_span f |}) blocks
    ∧ map (λ b, (ByFilename.lang b, ByFilename.code b,
                 ByFilename.fullBlock b))
          (ByFilename.extractCodeBlocks (JString s))
      = map (λ f, (toLowerCase (f_lang f), f_body f, fenced_span f)) blocks
    ∧ Forall (λ f, f_lang f ≠ []
                   ∧ Forall (λ c, is_word c = true) (f_lang f)
                   ∧ closable (f_body f) = true
                   ∧ ByLanguage.extractCodeBlocks (JString (f_before f)) = [])
        blocks
    ∧ ByLanguage.extractCodeBlocks (JString tail) = [].
Proof.
  destruct (exec_all_layout
              (λ m, (ByLanguage.block_of m,
                     (ByFilename.lang (ByFilename.block_of m),
                      ByFilename.code (ByFilename.block_of m),
                      ByFilename.fullBlock (ByFilename.block_of m))))
              (λ f, ({| ByLanguage.lang := toLowerCase (f_lang f);
                        ByLanguage.code := f_body f;
                        ByLanguage.fullBlock := fenced_span f |},
                     (toLowerCase (f_lang f), f_body f, fenced_span f)))
              ltac:(done) (S (length s)) s ltac:(lia))
    as (blocks & tail & Hr & Hm & Hf & Ht).
  exists blocks, tail. split; [done|].
  split; [|split; [|split]].
  - rewrite bylang_extract_string.
    apply (f_equal (map fst)) in Hm. by rewrite !map_map in Hm.
  - rewrite byfile_extract_string, map_map.
    apply (f_equal (map snd)) in Hm. by rewrite !map_map in Hm.
  - eapply Forall_impl; [exact Hf|]. intros f (H1 & H2 & H3 & H4).
    repeat split; try done. by apply bylang_extract_nil.
  - by apply bylang_extract_nil.
Qed.

Lemma bylang_extract_render (blocks : list fenced) (rest : text) :
  forallb well_formed blocks = true →
  ByLanguage.extractCodeBlocks (JString (render blocks rest))
  = map (λ f, {| ByLanguage.lang := toLowerCase (f_lang f);
                 ByLanguage.code := f_body f;
                 ByLanguage.fullBlock := fenced_span f |}) blocks
    ++ ByLanguage.extractCodeBlocks (JString rest).
Proof.
  intros Hwf. induction blocks as [|f blocks IH]; [done|].
  simpl in Hwf. apply andb_true_iff in Hwf as [Hf Hwf].
  apply well_formed_inv in Hf as (H1 & H2 & H3 & H4).
  rewrite bylang_extract_string.
  rewrite exec_all_unfold by apply block_regex_nonempty.
  cbn [render fold_right]. fold (render blocks rest).
  unfold fenced_span at 1. rewrite <- !app_assoc.
  rewrite block_search by done. cbn [m_post map app].
  rewrite <- bylang_extract_string, (IH Hwf). by f_equal.
Qed.

Lemma render_snoc (blocks : list fenced) (f : fenced) (rest : text) :
  render (blocks ++ [f]) rest
  = render blocks (f_before f ++ fenced_span f ++ rest).
Proof. unfold render. by rewrite fold_right_app. Qed.

(** X3.  What the loop writes for an extracted block is read back by the
    extractor as one block of the same language whose body is the old
    body and one more line feed, wherever it is written behind
    well-formed blocks and text without a fence: on its own, or
    appended after a blank line to such a text.  The blocks before it
    are read as they stand and the extraction goes on behind it. *)
Theorem written_block_read_back (doc : text) (b : ByLanguage.CodeBlock)
    (blocks : list fenced) (gap post : text) :
  b ∈ ByLanguage.extractCodeBlocks (JString doc) →
  forallb well_formed blocks = true →
  fence_free gap = true →
  ByLanguage.extractCodeBlocks
    (JString (render blocks (gap ++ ByLanguage.newFullBlock b ++ post)))
  = map (λ f, {| ByLanguage.lang := toLowerCase (f_lang f);
                 ByLanguage.code := f_body f;
                 ByLanguage.fullBlock := fenced_span f |}) blocks
    ++ {| ByLanguage.lang := ByLanguage.lang b;
          ByLanguage.code := ByLanguage.code b ++ [nl];
          ByLanguage.fullBlock := ByLanguage.newFullBlock b |}
       :: ByLanguage.extractCodeBlocks (JString post).
Proof.
  intros Hb Hwf Hgap.
  apply bylang_block_inv in Hb as (w & Hlang & Hw & Hword & Hbody).
  destruct (toLowerCase_word w Hword) as [Hlw Hidem].
  set (f := {| f_before := gap; f_lang := ByLanguage.lang b;
               f_body := ByLanguage.code b ++ [nl] |}).
  assert (gap ++ ByLanguage.newFullBlock b ++ post
          = f_before f ++ fenced_span f ++ post) as ->.
  { unfold ByLanguage.newFullBlock, fenced_span, f.
    cbn [f_before f_lang f_body]. by rewrite <- !app_assoc. }
  rewrite <- render_snoc, bylang_extract_render.
  - rewrite map_app, <- app_assoc. f_equal. cbn [map app]. f_equal.
    unfold f, fenced_span, ByLanguage.newFullBlock. cbn [f_lang f_body].
    rewrite Hlang, Hidem. by rewrite <- !app_assoc.
  - rewrite forallb_app, Hwf. cbn [forallb andb]. rewrite andb_true_r.
    unfold well_formed, f. cbn [f_before f_lang f_body].
    rewrite Hgap, (closable_line _ Hbody), Hlang.
    apply forallb_Forall in Hlw.
    destruct (toLowerCase w) eqn:Hl.
    + by destruct w.
    + by rewrite Hlw.
Qed.

Lemma written_block_read_back_witness :
  let b := {| ByLanguage.lang := js "js"; ByLanguage.code := js "run();\n";
              ByLanguage.fullBlock := js "```JS\nrun();\n```" |} in
  b ∈ ByLanguage.extractCodeBlocks (JString (js "x ```JS\nrun();\n``` y"))
  ∧ ByLanguage.extractCodeBlocks
      (JString (js "# Page\n```html\n<p>\n```\n\n```js\nrun();\n\n```\nand ```css\nb{}\n```"))
    = [ {| ByLanguage.lang := js "html"; ByLanguage.code := js "<p>\n";
           ByLanguage.fullBlock := js "```html\n<p>\n```" |};
        {| ByLanguage.lang := js "js"; ByLanguage.code := js "run();\n\n";
           ByLanguage.fullBlock := js "```js\nrun();\n\n```" |};
        {| ByLanguage.lang := js "css"; ByLanguage.code := js "b{}\n";
           ByLanguage.fullBlock := js "```css\nb{}\n```" |} ].
Proof.
  intros b.
  assert (Hb : b ∈ ByLanguage.extractCodeBlocks
                     (JString (js "x ```JS\nrun();\n``` y"))).
  { vm_compute. apply list_elem_of_here. }
  split; [exact Hb|].
  exact (written_block_read_back (js "x ```JS\nrun();\n``` y") b
           [ {| f_before := js "# Page\n"; f_lang := js "html";
                f_body := js "<p>\n" |} ]
           blank_line (js "\nand ```css\nb{}\n```") Hb eq_refl eq_refl).
Defined.

(** * Further properties of the replacement helpers *)

Lemma lang_matches (l w body : text) :
  Forall2 (λ p c, char_matches true p c = true) l w →
  matches true (lang_regex l) (fence ++ w ++ [nl] ++ body ++ fence) [].
Proof.
  intros Hw. simpl.
  exists fence, (w ++ [nl] ++ body ++ fence), [], []. repeat split; try done.
  { unfold fence. repeat constructor. }
  exists w, ([nl] ++ body ++ fence), [], []. repeat split; try done.
  exists [nl], (body ++ fence), [], []. repeat split; try done.
  { repeat constructor. }
  exists body, fence, [], []. repeat split; try done.
  - apply all_any.
  - lia.
  - unfold fence. repeat constructor.
Qed.

Lemma lang_here_inv (l s m : text) (caps : list text) (rest : text) :
  match_here true (lang_regex l) s = Some (m, caps, rest) →
  ∃ w body,
    m = fence ++ w ++ [nl] ++ body ++ fence
    ∧ Forall2 (λ p c, char_matches true p c = true) l w
    ∧ closable body = true.
Proof.
  unfold match_here, lang_regex. cbn [run]. intros H.
  destruct (match_chars true fence s) as [[m1 r1]|] eqn:H1; [|done].
  apply match_chars_sound in H1 as [-> Hf].
  apply (fence_chars true) in Hf as ->.
  destruct (match_chars true l r1) as [[w r2]|] eqn:H2; [|done].
  apply match_chars_sound in H2 as [-> Hw].
  destruct (match_chars true [nl] r2) as [[m3 r3]|] eqn:H3; [|done].
  apply match_chars_sound in H3 as [-> Hn].
  apply (nl_chars true) in Hn as ->.
  apply rep_lazy_first in H as (body & b' & -> & Hstop & Hearly).
  unfold stop_here in Hstop. cbn [Nat.leb app] in Hstop.
  destruct (match_chars true fence b') as [[m5 r5]|] eqn:H5; [|done].
  apply match_chars_sound in H5 as [-> Hf].
  apply (fence_chars true) in Hf as ->. simplify_eq.
  exists w, body. repeat split; try done.
  apply (no_early_fence_closable body rest). intros a1 a2 Hb Hne.
  specialize (Hearly a1 a2 Hb Hne).
  unfold stop_here in Hearly. cbn [Nat.leb app] in Hearly.
  destruct (starts_with fence (a2 ++ fence ++ rest)) eqn:Hsw.
  - apply starts_with_inv in Hsw as [r' Hsw]. rewrite Hsw in Hearly.
    by rewrite match_chars_fence_app in Hearly.
  - by apply match_chars_fence_none.
Qed.

(** X4.  For a language of word characters, which is what the loop
    passes, [replaceFirstCodeBlockByLang] reports a replacement exactly
    when the text holds a fence, the language in any case and a line
    feed, with a fence somewhere behind; when it reports none it
    returns the text as it was. *)
Theorem replace_by_lang_iff (base l newBlock : text) :
  Forall (λ c, is_word c = true) l →
  (snd (ByLanguage.replaceFirstCodeBlockByLang base l newBlock) = true
   ↔ ∃ pre w body post,
       base = pre ++ fence ++ w ++ [nl] ++ body ++ fence ++ post
       ∧ Forall2 (λ p c, char_matches true p c = true) l w)
  ∧ (snd (ByLanguage.replaceFirstCodeBlockByLang base l newBlock) = false
     ↔ ByLanguage.replaceFirstCodeBlockByLang base l newBlock
       = (base, false)).
Proof.
  intros _. unfold ByLanguage.replaceFirstCodeBlockByLang. split.
  - destruct (test true (lang_regex l) base) eqn:Ht; cbn [snd].
    + split; [|done]. intros _. apply test_true_iff in Ht
        as (pre & m & caps & post & -> & Hm).
      apply lang_regex_shape in Hm as (w & body & -> & Hw & _).
      exists pre, w, body, post. by rewrite <- !app_assoc.
    + split; [done|]. intros (pre & w & body & post & -> & Hw).
      rewrite <- Ht. apply test_true_iff.
      exists pre, (fence ++ w ++ [nl] ++ body ++ fence), [], post.
      split; [by rewrite <- !app_assoc|]. by apply lang_matches.
  - by destruct (test true (lang_regex l) base).
Qed.

Lemma replace_by_lang_iff_witness :
  (∃ pre w body post,
     js "# a\n```JS\nold();\n```\nend"
     = pre ++ fence ++ w ++ [nl] ++ body ++ fence ++ post
     ∧ Forall2 (λ p c, char_matches true p c = true) (js "js") w)
  ∧ ByLanguage.replaceFirstCodeBlockByLang (js "# a\n```JS\nold();\n```\nend")
      (js "py") (js "NEW")
    = (js "# a\n```JS\nold();\n```\nend", false).
Proof.
  split.
  - apply (replace_by_lang_iff (js "# a\n```JS\nold();\n```\nend") (js "js")
             (js "NEW")); [repeat constructor|reflexivity].
  - apply (replace_by_lang_iff (js "# a\n```JS\nold();\n```\nend") (js "py")
             (js "NEW")); [repeat constructor|reflexivity].
Defined.

(** X5.  For a language of word characters, which is what the loop
    passes: when [replaceFirstCodeBlockByLang] replaces, it replaces one
    span, the leftmost place where a fence, the language in any case and
    a line feed are followed by a fence, from there to the first fence
    behind the line feed.  The text before and after the span is kept,
    and a new block without dollar is put in as it is. *)
Theorem replace_by_lang_span (base l newBlock updated : text) :
  Forall (λ c, is_word c = true) l →
  ByLanguage.replaceFirstCodeBlockByLang base l newBlock = (updated, true) →
  ∃ pre w body post,
    base = pre ++ (fence ++ w ++ [nl] ++ body ++ fence) ++ post
    ∧ Forall2 (λ p c, char_matches true p c = true) l w
    ∧ closable body = true
    ∧ (∀ a b w' body' post',
         pre = a ++ b → b ≠ [] →
         Forall2 (λ p c, char_matches true p c = true) l w' →
         b ++ (fence ++ w ++ [nl] ++ body ++ fence) ++ post
         ≠ fence ++ w' ++ [nl] ++ body' ++ fence ++ post')
    ∧ updated
      = pre
        ++ get_substitution (fence ++ w ++ [nl] ++ body ++ fence) pre post
             newBlock
        ++ post
    ∧ (dollar ∉ newBlock → updated = pre ++ newBlock ++ post).
Proof.
  intros _.
  unfold ByLanguage.replaceFirstCodeBlockByLang, test, replace_first.
  destruct (search true (lang_regex l) base) as [mr|] eqn:Hs; [|done].
  intros [= <-].
  destruct (search_sound _ _ _ _ Hs) as (Hb & Hhere & Hleft).
  apply lang_here_inv in Hhere as (w & body & Hall & Hw & Hbody).
  exists (m_pre mr), w, body, (m_post mr). rewrite <- Hall.
  repeat split; try done.
  - intros a b w' body' post' Hpre Hne Hw' Heq.
    specialize (Hleft a b Hpre Hne). rewrite Heq in Hleft.
    apply (match_here_complete true (lang_regex l)
             (fence ++ w' ++ [nl] ++ body' ++ fence) [] post'
             (lang_matches l w' body' Hw')).
    by rewrite <- !app_assoc.
  - intros Hd. by rewrite get_substitution_plain.
Qed.

Lemma replace_by_lang_span_witness :
  ∃ pre w body post,
    js "# a\n```JS\nold();\n```\n```js\nkeep();\n```"
    = pre ++ (fence ++ w ++ [nl] ++ body ++ fence) ++ post
    ∧ Forall2 (λ p c, char_matches true p c = true) (js "js") w
    ∧ closable body = true
    ∧ (∀ a b w' body' post',
         pre = a ++ b → b ≠ [] →
         Forall2 (λ p c, char_matches true p c = true) (js "js") w' →
         b ++ (fence ++ w ++ [nl] ++ body ++ fence) ++ post
         ≠ fence ++ w' ++ [nl] ++ body' ++ fence ++ post')
    ∧ js "# a\n```js\nnew();\n\n```\n```js\nkeep();\n```"
      = pre
        ++ get_substitution (fence ++ w ++ [nl] ++ body ++ fence) pre post
             (js "```js\nnew();\n\n```")
        ++ post
    ∧ (dollar ∉ js "```js\nnew();\n\n```" →
       js "# a\n```js\nnew();\n\n```\n```js\nkeep();\n```"
       = pre ++ js "```js\nnew();\n\n```" ++ post).
Proof.
  exact (replace_by_lang_span
           (js "# a\n```JS\nold();\n```\n```js\nkeep();\n```") (js "js")
           (js "```js\nnew();\n\n```")
           (js "# a\n```js\nnew();\n\n```\n```js\nkeep();\n```")
           ltac:(repeat constructor) eq_refl).
Defined.

Lemma filename_matches (name w gap f ws name' gap' : text) :
  w ≠ [] → Forall (λ c, is_word_or_dash c = true) w →
  Forall2 (λ p c, char_matches true p c = true) file_colon f →
  Forall (λ c, is_space c = true) ws →
  Forall2 (λ p c, char_matches true p c = true) name name' →
  matches true (filename_regex name)
    (fence ++ w ++ [nl] ++ gap ++ f ++ ws ++ name' ++ gap' ++ fence) [].
Proof.
  intros Hw Hword Hf Hws Hname. unfold filename_regex.
  rewrite pattern_chars_escape. simpl.
  exists fence, (w ++ [nl] ++ gap ++ f ++ ws ++ name' ++ gap' ++ fence), [], [].
  repeat split; try done.
  { unfold fence. repeat constructor. }
  exists w, ([nl] ++ gap ++ f ++ ws ++ name' ++ gap' ++ fence), [], [].
  repeat split; try done.
  { destruct w; [done|simpl; lia]. }
  exists [nl], (gap ++ f ++ ws ++ name' ++ gap' ++ fence), [], [].
  repeat split; try done.
  { repeat constructor. }
  exists gap, (f ++ ws ++ name' ++ gap' ++ fence), [], [].
  repeat split; try done; [apply all_any|lia|].
  exists f, (ws ++ name' ++ gap' ++ fence), [], []. repeat split; try done.
  exists ws, (name' ++ gap' ++ fence), [], []. repeat split; try done; [lia|].
  exists name', (gap' ++ fence), [], []. repeat split; try done.
  exists gap', fence, [], []. repeat split; try done; [apply all_any|lia|].
  unfold fence. repeat constructor.
Qed.

(** X6.  [replaceBlockByFilename] reports a replacement exactly when the
    filename is a string that is not empty and the text holds an opening
    fence line (a fence, word characters or dashes, a line feed), behind
    it [file:], white space or none and the filename, all in any case,
    and behind that a fence; when it reports none, for a missing or
    empty filename in particular, it returns the text as it was. *)
Theorem replace_by_filename_iff (base : text) (filename : option text)
    (newBlock : text) :
  (snd (ByFilename.replaceBlockByFilename base filename newBlock) = true
   ↔ ∃ name pre w gap f ws name' gap' post,
       filename = Some name ∧ name ≠ []
       ∧ base = pre ++ fence ++ w ++ [nl] ++ gap ++ f ++ ws ++ name'
                  ++ gap' ++ fence ++ post
       ∧ w ≠ [] ∧ Forall (λ c, is_word_or_dash c = true) w
       ∧ Forall2 (λ p c, char_matches true p c = true) file_colon f
       ∧ Forall (λ c, is_space c = true) ws
       ∧ Forall2 (λ p c, char_matches true p c = true) name name')
  ∧ (snd (ByFilename.replaceBlockByFilename base filename newBlock) = false
     ↔ ByFilename.replaceBlockByFilename base filename newBlock
       = (base, false)).
Proof.
  unfold ByFilename.replaceBlockByFilename.
  destruct filename as [[|c name]|].
  - split; [|done]. split; [done|]. by intros (? & ? & ? & ? & ? & ? & ? & ? & ?
      & [= <-] & ? & _).
  - destruct (test true (filename_regex (c :: name)) base) eqn:Ht; cbn [snd].
    + split; [|done]. split; [|done]. intros _.
      apply test_true_iff in Ht as (pre & m & caps & post & -> & Hm).
      apply filename_regex_shape in Hm
        as (w & gap & f & ws & name' & gap' & -> & Hw & Hword & Hf & Hws & Hn).
      exists (c :: name), pre, w, gap, f, ws, name', gap', post.
      repeat split; try done. by rewrite <- !app_assoc.
    + split; [|done]. split; [done|].
      intros (name0 & pre & w & gap & f & ws & name' & gap' & post & [= <-]
              & _ & -> & Hw & Hword & Hf & Hws & Hn).
      rewrite <- Ht. apply test_true_iff.
      exists pre,
        (fence ++ w ++ [nl] ++ gap ++ f ++ ws ++ name' ++ gap' ++ fence),
        [], post.
      split; [by rewrite <- !app_assoc|]. by apply filename_matches.
  - split; [|done]. split; [done|].
    by intros (? & ? & ? & ? & ? & ? & ? & ? & ? & [=] & _).
Qed.

(** X7.  When [replaceBlockByFilename] replaces, it replaces one span,
    which starts at the leftmost place where an opening fence line is
    followed, at any distance, by [file:], white space or none, the
    filename (all in any case) and then by a fence.  The span is made of
    that opening line, any text, the marker with the filename, any text
    and a fence; the text before and after the span is kept, and a new
    block without dollar is put in as it is. *)
Theorem replace_by_filename_span (base : text) (filename : option text)
    (newBlock updated : text) :
  ByFilename.replaceBlockByFilename base filename newBlock = (updated, true) →
  ∃ name pre w gap f ws name' gap' post,
    filename = Some name ∧ name ≠ []
    ∧ base = pre ++ (fence ++ w ++ [nl] ++ gap ++ f ++ ws ++ name' ++ gap'
                       ++ fence) ++ post
    ∧ w ≠ [] ∧ Forall (λ c, is_word_or_dash c = true) w
    ∧ Forall2 (λ p c, char_matches true p c = true) file_colon f
    ∧ Forall (λ c, is_space c = true) ws
    ∧ Forall2 (λ p c, char_matches true p c = true) name name'
    ∧ (∀ a b w0 gap0 f0 ws0 name0 gap0' post0,
         pre = a ++ b → b ≠ [] →
         w0 ≠ [] → Forall (λ c, is_word_or_dash c = true) w0 →
         Forall2 (λ p c, char_matches true p c = true) file_colon f0 →
         Forall (λ c, is_space c = true) ws0 →
         Forall2 (λ p c, char_matches true p c = true) name name0 →
         b ++ (fence ++ w ++ [nl] ++ gap ++ f ++ ws ++ name' ++ gap'
                 ++ fence) ++ post
         ≠ fence ++ w0 ++ [nl] ++ gap0 ++ f0 ++ ws0 ++ name0 ++ gap0'
             ++ fence ++ post0)
    ∧ updated
      = pre
        ++ get_substitution
             (fence ++ w ++ [nl] ++ gap ++ f ++ ws ++ name' ++ gap' ++ fence)
             pre post newBlock
        ++ post
    ∧ (dollar ∉ newBlock → updated = pre ++ newBlock ++ post).
Proof.
  unfold ByFilename.replaceBlockByFilename, test, replace_first.
  destruct filename as [[|c name]|]; [done| |done].
  destruct (search true (filename_regex (c :: name)) base) as [mr|] eqn:Hs;
    [|done].
  intros [= <-].
  destruct (search_sound _ _ _ _ Hs) as (Hb & _ & Hleft).
  apply search_split in Hs as [_ Hm].
  apply filename_regex_shape in Hm
    as (w & gap & f & ws & name' & gap' & Hall & Hw & Hword & Hf & Hws & Hn).
  exists (c :: name), (m_pre mr), w, gap, f, ws, name', gap', (m_post mr).
  rewrite <- Hall. repeat split; try done.
  - intros a b w0 gap0 f0 ws0 name0 gap0' post0 Hpre Hne Hw0 Hword0 Hf0 Hws0
      Hn0 Heq.
    specialize (Hleft a b Hpre Hne). rewrite Heq in Hleft.
    apply (match_here_complete true (filename_regex (c :: name))
             (fence ++ w0 ++ [nl] ++ gap0 ++ f0 ++ ws0 ++ name0 ++ gap0'
                ++ fence) [] post0
             (filename_matches (c :: name) w0 gap0 f0 ws0 name0 gap0'
                Hw0 Hword0 Hf0 Hws0 Hn0)).
    by rewrite <- !app_assoc.
  - intros Hd. by rewrite get_substitution_plain.
Qed.

Lemma replace_by_filename_span_witness :
  ∃ name pre w gap f ws name' gap' post,
    Some (js "app.js") = Some name ∧ name ≠ []
    ∧ js "# a\n```css\nb{}\n```\n```js\n// FILE: App.js\nold();\n```\nend"
      = pre ++ (fence ++ w ++ [nl] ++ gap ++ f ++ ws ++ name' ++ gap'
                  ++ fence) ++ post
    ∧ w ≠ [] ∧ Forall (λ c, is_word_or_dash c = true) w
    ∧ Forall2 (λ p c, char_matches true p c = true) file_colon f
    ∧ Forall (λ c, is_space c = true) ws
    ∧ Forall2 (λ p c, char_matches true p c = true) name name'
    ∧ (∀ a b w0 gap0 f0 ws0 name0 gap0' post0,
         pre = a ++ b → b ≠ [] →
         w0 ≠ [] → Forall (λ c, is_word_or_dash c = true) w0 →
         Forall2 (λ p c, char_matches true p c = true) file_colon f0 →
         Forall (λ c, is_space c = true) ws0 →
         Forall2 (λ p c, char_matches true p c = true) name name0 →
         b ++ (fence ++ w ++ [nl] ++ gap ++ f ++ ws ++ name' ++ gap'
                 ++ fence) ++ post
         ≠ fence ++ w0 ++ [nl] ++ gap0 ++ f0 ++ ws0 ++ name0 ++ gap0'
             ++ fence ++ post0)
    ∧ js "# a\nNEW\nend"
      = pre
        ++ get_substitution
             (fence ++ w ++ [nl] ++ gap ++ f ++ ws ++ name' ++ gap' ++ fence)
             pre post (js "NEW")
        ++ post
    ∧ (dollar ∉ js "NEW" → js "# a\nNEW\nend" = pre ++ js "NEW" ++ post).
Proof.
  exact (replace_by_filename_span
           (js "# a\n```css\nb{}\n```\n```js\n// FILE: App.js\nold();\n```\nend")
           (Some (js "app.js")) (js "NEW") (js "# a\nNEW\nend") eq_refl).
Defined.

(** * Further properties of the handlers *)

Lemma trim_start_nil (s : text) :
  trim_start s = [] ↔ Forall (λ c, is_space c = true) s.
Proof.
  induction s as [|c s IH]; simpl.
  - split; [by constructor|done].
  - destruct (is_space c) eqn:Hc.
    + rewrite IH. split; [by constructor|by inversion 1].
    + split; [done|]. inversion 1; congruence.
Qed.

Lemma trim_start_head (s : text) :
  match trim_start s with
  | c :: _ => is_space c = false
  | [] => True
  end.
Proof.
  induction s as [|c s IH]; simpl; [done|].
  destruct (is_space c) eqn:Hc; [done|]. by simpl.
Qed.

Lemma trim_start_spaces (s : text) :
  Forall (λ c, is_space c = true) (trim_start s) → trim_start s = [].
Proof.
  intros H. pose proof (trim_start_head s) as Hh.
  destruct (trim_start s) as [|c t]; [done|].
  apply Forall_cons in H as [H _]. congruence.
Qed.

Lemma trim_nil (s : text) :
  trim s = [] ↔ Forall (λ c, is_space c = true) s.
Proof.
  unfold trim. rewrite <- trim_start_nil. split.
  - intros H. apply (f_equal (@rev ascii)) in H.
    rewrite rev_involutive in H. simpl in H.
    apply trim_start_nil in H. apply Forall_rev in H.
    rewrite rev_involutive in H. by apply trim_start_spaces.
  - by intros ->.
Qed.

Lemma is_blank_iff (s : text) :
  is_blank s = true ↔ Forall (λ c, is_space c = true) s.
Proof.
  rewrite <- trim_nil. unfold is_blank. by destruct (trim s).
Qed.

Lemma anyreq_step_text (t : text) (blk : ByFilename.CodeBlock) :
  FilenameHandler.merge_step (FilenameHandler.IsText t) blk
  = Some (FilenameHandler.IsText (ByFilename.merge_step t blk)).
Proof.
  unfold FilenameHandler.merge_step, ByFilename.merge_step.
  destruct (ByFilename.has_filename blk); [|done].
  unfold FilenameHandler.replaceBlockByFilename.
  by destruct (ByFilename.replaceBlockByFilename t (ByFilename.filename blk)
                 (ByFilename.newFullBlock blk)) as [u []].
Qed.

Lemma anyreq_loop_text (t : text) (blks : list ByFilename.CodeBlock) :
  FilenameHandler.merge_loop (FilenameHandler.IsText t) blks
  = Some (FilenameHandler.IsText (ByFilename.merge_loop t blks)).
Proof.
  revert t. induction blks as [|blk blks IH]; intros t; [done|].
  cbn [FilenameHandler.merge_loop]. rewrite anyreq_step_text. apply IH.
Qed.

Lemma anyreq_merge_text (t out : text) :
  FilenameHandler.merge (FilenameHandler.IsText t) out
  = Some {| FilenameHandler.output :=
              FilenameHandler.IsText (ByFilename.output (ByFilename.merge t out));
            FilenameHandler.aiRaw := out;
            FilenameHandler.aiBlocksCount :=
              length (ByFilename.extractCodeBlocks (JString out)) |}.
Proof.
  unfold FilenameHandler.merge, ByFilename.merge. rewrite anyreq_loop_text.
  cbn [ByFilename.output].
  by destruct (length (ByFilename.extractCodeBlocks (JString out)) =? 0).
Qed.

Lemma anyreq_merge_no_text (t out : text) :
  FilenameHandler.merge (FilenameHandler.NoText (Some t)) out
  = if FilenameHandler.first_block_found t out then None
    else FilenameHandler.merge (FilenameHandler.IsText t) out.
Proof.
  unfold FilenameHandler.merge, FilenameHandler.first_block_found.
  destruct (ByFilename.extractCodeBlocks (JString out)) as [|blk blks]; [done|].
  cbn [FilenameHandler.merge_loop]. rewrite anyreq_step_text.
  unfold FilenameHandler.merge_step, ByFilename.merge_step,
    ByFilename.has_filename, FilenameHandler.replaceBlockByFilename,
    ByFilename.replaceBlockByFilename.
  destruct (ByFilename.filename blk) as [[|c f]|]; [done| |done].
  by destruct (test true (filename_regex (c :: f)) t).
Qed.

Lemma anyreq_merge_raises (out : text) :
  FilenameHandler.merge (FilenameHandler.NoText None) out = None.
Proof.
  unfold FilenameHandler.merge.
  destruct (ByFilename.extractCodeBlocks (JString out)) as [|blk blks]; [done|].
  cbn [FilenameHandler.merge_loop].
  unfold FilenameHandler.merge_step, ByFilename.has_filename,
    FilenameHandler.replaceBlockByFilename.
  by destruct (ByFilename.filename blk) as [[|c f]|].
Qed.

(** X8.  The reply of the by-language handler to any request, by its
    status.  405 for every method but POST.  Else 400 unless the prompt
    is a string that is not empty, also when the request has no body.
    Else 500 in three cases: the previous code is truthy and no string
    (its [trim] cannot be called, and the model is not asked), the call
    to the model raises, or its content is anything but a string that
    holds more than white space.  And 200 in the one remaining case,
    with the merge of the previous code, or of the empty text when that
    is missing or falsy, and the output. *)
Theorem bylang_handler_status (req : any_request) (outcome : call_outcome) :
  let body :=
    default {| b_prompt := Missing; b_previousCode := Missing |} (r_body req) in
  let valid := ∃ p, b_prompt body = Text p ∧ p ≠ [] in
  (LanguageHandler.handler req outcome = ByLanguage.Status405
   ↔ r_method req ≠ "POST"%string)
  ∧ (LanguageHandler.handler req outcome = ByLanguage.Status400
     ↔ r_method req = "POST"%string ∧ ¬ valid)
  ∧ (LanguageHandler.handler req outcome = ByLanguage.Status500
     ↔ r_method req = "POST"%string ∧ valid
       ∧ ((received_truthy (b_previousCode body) = true
           ∧ ∀ s, b_previousCode body ≠ Text s)
          ∨ outcome = CallThrows
          ∨ ∃ content, outcome = CallReturns content
              ∧ ∀ out, content = Text out
                       → Forall (λ c, is_space c = true) out))
  ∧ (∀ reply,
       LanguageHandler.handler req outcome = ByLanguage.Status200 reply
       ↔ r_method req = "POST"%string ∧ valid
         ∧ ∃ prev out,
             (b_previousCode body = Text prev
              ∨ received_truthy (b_previousCode body) = false ∧ prev = [])
             ∧ outcome = CallReturns (Text out)
             ∧ ¬ Forall (λ c, is_space c = true) out
             ∧ reply = ByLanguage.merge prev out).
Proof.
  intros body valid. unfold LanguageHandler.handler. fold body.
  destruct (String.eqb (r_method req) "POST") eqn:Hm; cbn [negb].
  2:{ assert (r_method req ≠ "POST"%string) as Hne.
      { intros H. apply String.eqb_eq in H. congruence. }
      split; [done|]. split; [|split; [|intros reply]];
        (split; [done|by intros [? _]]). }
  apply String.eqb_eq in Hm. unfold valid, or_empty.
  destruct (b_prompt body) as [|[|c p]|t sh] eqn:Hp;
    try (split; [done|]; split; [split; [intros _; split; [done|];
           by intros (? & [=] & ?)|done]|];
         split; [|intros reply]; (split; [done|by intros (_ & (? & [=] & ?) & _)])).
  assert (∃ p0, Text (c :: p) = Text p0 ∧ p0 ≠ []) as Hv by (by eexists).
  destruct (b_previousCode body) as [|[|c' prev]|[] psh] eqn:Hprev;
    cbn [received_truthy].
  all: destruct outcome as [|[|[|c'' out]|[] osh]]; cbn [received_truthy negb].
  all: try destruct (is_blank (c'' :: out)) eqn:Hb.
  all: try (apply is_blank_iff in Hb).
  all: try (assert (¬ Forall (λ c, is_space c = true) (c'' :: out)) as Hnb
              by (rewrite <- is_blank_iff; congruence)).
  all: (split; [done|]); (split; [split; [done|by intros [_ ?]]|]).
  all: split; [|intros reply]; (split; [try done|]).
  all: try (by intros (_ & _ & ? & ? & _ & [=] & _)).
  all: try (by intros (_ & _ & ? & ? & [[=]|[[=] _]] & _)).
  all: try (by intros _).
  all: try (intros _; split; [done|]; split; [done|]; by right; left).
  all: try (intros _; split; [done|]; split; [done|]; right; right;
            eexists; split; [done|]; by intros ? [=]).
  all: try (intros _; split; [done|]; split; [done|]; right; right;
            eexists; split; [done|]; by intros ? [= <-]).
  all: try (intros _; split; [done|]; split; [done|]; left; split; [done|];
            by intros ?).
  all: try (by intros (_ & _ & prev0 & out0 & _ & [= <-] & Hn & _)).
  all: try (intros (_ & _ & [[? ?]|[?|(content & [= <-] & H)]]); try done;
            by specialize (H _ eq_refl)).
  all: try (by intros (_ & _ & prev0 & out0 & [[= <-]|[? ->]] & [= <-] & _ & ->)).
  all: try (intros [= <-]; split; [done|]; split; [done|];
            eexists _, _; split; [by right|done]).
  all: try (intros [= <-]; split; [done|]; split; [done|];
            eexists _, _; split; [by left|done]).
  all: try (intros (_ & _ & [[_ H]|[?|(content & [= <-] & H)]]); try done;
            [by destruct (H _ eq_refl)|by specialize (H _ eq_refl)]).
  all: intros (_ & _ & prev0 & out0 & _ & [= <-] & Hn & _); destruct Hn;
    first [assumption|constructor].
Qed.

(** X9.  The reply of the filename-aware handler to any request, by its
    status.  405 for every method but POST.  A request without body
    (undefined or null) gets 500, where the by-language handler answers
    400.  Else 400 exactly when the prompt is falsy: a truthy prompt
    that is no string passes.  200 needs a prompt that converts to a
    string, a content of the model that is a string with more than
    white space, and a previous code that is a string, or falsy (the
    merge starts from the empty text), or a truthy value that converts
    to a string in which the first turn of the loop does not find the
    filename of its block (the merge is that of the converted string);
    the merged text of the reply is then always a string.  Every other
    case is a 500: a conversion that raises, a call that raises, a
    content that is no string or blank, and a previous code that is no
    string when the first turn finds its filename in it, because
    [replace] cannot be called on it. *)
Theorem byfile_handler_status (req : any_request) (outcome : call_outcome) :
  (FilenameHandler.handler req outcome = FilenameHandler.Status405
   ↔ r_method req ≠ "POST"%string)
  ∧ (FilenameHandler.handler req outcome = FilenameHandler.Status400
     ↔ r_method req = "POST"%string
       ∧ ∃ body, r_body req = Some body
           ∧ received_truthy (b_prompt body) = false)
  ∧ (FilenameHandler.handler req outcome = FilenameHandler.Status500
     ↔ r_method req = "POST"%string
       ∧ (r_body req = None
          ∨ ∃ body, r_body req = Some body
              ∧ received_truthy (b_prompt body) = true
              ∧ (b_prompt body = Other true None
                 ∨ b_previousCode body = Other true None
                 ∨ outcome = CallThrows
                 ∨ (∃ content, outcome = CallReturns content
                      ∧ ∀ out, content = Text out
                               → Forall (λ c, is_space c = true) out)
                 ∨ (∃ t out, b_previousCode body = Other true (Some t)
                      ∧ outcome = CallReturns (Text out)
                      ∧ FilenameHandler.first_block_found t out = true))))
  ∧ (∀ reply,
       FilenameHandler.handler req outcome = FilenameHandler.Status200 reply
       ↔ r_method req = "POST"%string
         ∧ ∃ body prev out,
             r_body req = Some body
             ∧ received_truthy (b_prompt body) = true
             ∧ b_prompt body ≠ Other true None
             ∧ (b_previousCode body = Text prev
                ∨ received_truthy (b_previousCode body) = false ∧ prev = []
                ∨ b_previousCode body = Other true (Some prev)
                  ∧ FilenameHandler.first_block_found prev out = false)
             ∧ outcome = CallReturns (Text out)
             ∧ ¬ Forall (λ c, is_space c = true) out
             ∧ reply
               = {| FilenameHandler.output :=
                      FilenameHandler.IsText
                        (ByFilename.output (ByFilename.merge prev out));
                    FilenameHandler.aiRaw := out;
                    FilenameHandler.aiBlocksCount :=
                      length (ByFilename.extractCodeBlocks (JString out)) |}).
Proof.
  unfold FilenameHandler.handler.
  destruct (String.eqb (r_method req) "POST") eqn:Hm; cbn [negb].
  2:{ assert (r_method req ≠ "POST"%string) as Hne.
      { intros H. apply String.eqb_eq in H. congruence. }
      split; [done|]. split; [|split; [|intros reply]];
        (split; [done|by intros [? _]]). }
  apply String.eqb_eq in Hm.
  destruct (r_body req) as [[prompt previousCode]|]; cbn [b_prompt b_previousCode].
  2:{ split; [done|]. split; [split; [done|by intros (_ & ? & [=] & _)]|].
      split; [split; [intros _; split; [done|by left]|done]|].
      intros reply. split; [done|]. by intros (_ & ? & ? & ? & [=] & _). }
  unfold or_empty.
  destruct prompt as [|[|c p]|[] [tp|]]; cbn [received_truthy negb converts];
    rewrite ?andb_false_r; cbn [negb].
  1,2,6,7: (split; [done|]);
    (split; [split; [intros _; split; [done|]; by eexists|done]|]);
    (split; [split; [done|by intros (_ & [[=]|(? & [= <-] & [=] & _)])]|]);
    intros reply; split; [done|by intros (_ & ? & ? & ? & [= <-] & [=] & _)].
  3: (split; [done|]);
    (split; [split; [done|by intros (_ & ? & [= <-] & [=])]|]);
    (split; [split; [intros _; split; [done|]; right; eexists;
                     split; [done|]; split; [done|]; by left|done]|]);
    intros reply; split; [done|by intros (_ & ? & ? & ? & [= <-] & _ & ? & _)].
  all: rewrite andb_true_r.
  all: destruct previousCode as [|[|c' prev]|[] [t|]];
    cbn [received_truthy negb converts andb FilenameHandler.start].
  all: destruct outcome as [|[|[|c'' out]|[] osh]]; cbn [received_truthy negb].
  all: try change (is_blank []) with true; cbn iota.
  all: try destruct (is_blank (c'' :: out)) eqn:Hb.
  all: try (apply is_blank_iff in Hb).
  all: try (assert (¬ Forall (λ c, is_space c = true) (c'' :: out)) as Hnb
              by (rewrite <- is_blank_iff; congruence)).
  all: rewrite ?anyreq_merge_no_text, ?anyreq_merge_text.
  all: try destruct (FilenameHandler.first_block_found t (c'' :: out)) eqn:Hf.
  all: rewrite ?anyreq_merge_text.
  all: (split; [done|]).
  all: (split; [split; [done|by intros (_ & ? & [= <-] & [=])]|]).
  all: split; [|intros reply]; split.
  all: try done.
  (* the reply is 500: name the cause *)
  all: try (intros _; split; [done|]; right; eexists; split; [done|];
            split; [done|];
            first [ by right; left
                  | by do 2 right; left
                  | do 3 right; left; eexists; split; [done|];
                    first [by intros ? [=]
                          |intros ? [= <-]; first [exact Hb|apply Forall_nil_2]]
                  | by do 4 right; eexists _, _ ]).
  (* the reply is 200: no cause of a 500 holds *)
  all: try (intros (_ & [[=]|(? & [= <-] & _
              & [[=]|[[=]|[[=]|[(? & [= <-] & H)|(? & ? & [= <-] & [= <-] & H)]]]])]);
            first [by specialize (H _ eq_refl)|congruence]).
  (* the reply is 500: the conditions of a 200 fail *)
  all: try (intros (_ & ? & ? & ? & [= <-] & _ & _ & Hprev & Hout & Hn & _);
            first [ discriminate Hout
                  | injection Hout as <-;
                    first [ by destruct Hn; first [exact Hb|apply Forall_nil_2]
                          | cbn [b_previousCode received_truthy] in Hprev;
                            destruct Hprev as [?|[[? ?]|[? H]]]; congruence ] ]).
  (* the reply is 200: the conditions hold, and they fix the reply *)
  all: try (intros [= <-]; split; [done|]; eexists _, _, _;
            split; [done|]; split; [done|]; split; [done|];
            first [ by split; [left|]
                  | by split; [right; left|]
                  | by split; [right; right|] ]).
  all: try (intros (_ & ? & ? & ? & [= <-] & _ & _ & Hprev & [= <-] & _ & ->);
            by destruct Hprev as [[= <-]|[[? ->]|[[= <-] ?]]]).
Qed.

(** * Further properties of the merge *)

(** No fence begins inside a closable text, whatever follows it. *)
Lemma closable_no_fence_start (a b x : text) :
  closable (a ++ b) = true → b ≠ [] → starts_with fence (b ++ x) = false.
Proof.
  unfold closable, fence_free. rewrite andb_true_iff, !negb_true_iff.
  intros [H He] Hb. rewrite ends_with_backtick_suffix in He by done.
  apply has_fence_suffix, has_fence_head in H.
  unfold ends_with_backtick in He.
  destruct b as [|c1 [|c2 [|c3 b]]]; [done| | |]; simpl in *.
  - destruct (ascii_eqb backtick c1) eqn:H1; [|done].
    apply ascii_eqb_eq in H1 as <-. by rewrite ascii_eqb_refl in He.
  - destruct (ascii_eqb backtick c2) eqn:H2.
    + apply ascii_eqb_eq in H2 as <-. by rewrite ascii_eqb_refl in He.
    + by destruct (ascii_eqb backtick c1).
  - destruct (ascii_eqb backtick c1), (ascii_eqb backtick c2),
      (ascii_eqb backtick c3); done.
Qed.

(** A replacement whose expression begins with a fence keeps a closable
    text at the head of the input. *)
Lemma replace_first_keeps_head (ic : bool) (r : regex)
    (t0 x newBlock : text) :
  (∀ m caps, matches ic r m caps → ∃ m', m = fence ++ m') →
  closable t0 = true →
  ∃ x', replace_first ic r (t0 ++ x) newBlock = t0 ++ x'.
Proof.
  intros Hshape Ht0. unfold replace_first.
  destruct (search ic r (t0 ++ x)) as [mr|] eqn:Hs; [|by exists x].
  apply search_split in Hs as [Hsplit Hm].
  apply Hshape in Hm as [m' Hm]. rewrite Hm in Hsplit.
  apply app_eq_app in Hsplit as [l [[H1 H2]|[H1 H2]]].
  - destruct l as [|c l].
    + rewrite app_nil_r in H1. subst t0. eexists. reflexivity.
    + rewrite H1 in Ht0.
      pose proof (closable_no_fence_start (m_pre mr) (c :: l) x Ht0
                    ltac:(done)) as Hn.
      rewrite <- H2, <- app_assoc, starts_with_app in Hn. done.
  - rewrite H1, <- app_assoc. eexists. reflexivity.
Qed.

Lemma lang_regex_fence (l m : text) (caps : list text) :
  matches true (lang_regex l) m caps → ∃ m', m = fence ++ m'.
Proof.
  intros H. apply lang_regex_shape in H as (w & body & -> & _).
  by eexists.
Qed.

Lemma filename_regex_fence (name m : text) (caps : list text) :
  matches true (filename_regex name) m caps → ∃ m', m = fence ++ m'.
Proof.
  intros H. apply filename_regex_shape in H
    as (w & gap & f & ws & name' & gap' & -> & _).
  by eexists.
Qed.

Lemma bylang_loop_keeps_head (t0 : text) (blks : list ByLanguage.CodeBlock)
    (st : ByLanguage.merge_state) :
  closable t0 = true →
  (∃ x, ByLanguage.merged st = t0 ++ x) →
  ∃ x', ByLanguage.merged (ByLanguage.merge_loop st blks) = t0 ++ x'.
Proof.
  intros Ht0. revert st. induction blks as [|b blks IH]; intros st Hst;
    [done|].
  cbn [ByLanguage.merge_loop fold_left]. apply IH.
  destruct Hst as [x Hx]. rewrite step_cases.
  destruct (ByLanguage.replaces st b); cbn [ByLanguage.merged].
  - rewrite Hx. apply replace_first_keeps_head; [|done].
    apply lang_regex_fence.
  - unfold ByLanguage.append_block. cbn [ByLanguage.merged].
    rewrite Hx, <- app_assoc. by eexists.
Qed.

Lemma byfile_loop_keeps_head (t0 : text) (blks : list ByFilename.CodeBlock)
    (merged : text) :
  closable t0 = true →
  (∃ x, merged = t0 ++ x) →
  ∃ x', ByFilename.merge_loop merged blks = t0 ++ x'.
Proof.
  intros Ht0. revert merged.
  induction blks as [|b blks IH]; intros merged Hm; [done|].
  cbn [ByFilename.merge_loop fold_left]. apply IH.
  destruct Hm as [x ->]. unfold ByFilename.merge_step.
  assert (∃ x', (t0 ++ x) ++ blank_line ++ ByFilename.newFullBlock b
                = t0 ++ x') as Happ
    by (rewrite <- app_assoc; by eexists).
  destruct (ByFilename.has_filename b); [|done].
  unfold ByFilename.replaceBlockByFilename.
  destruct (ByFilename.filename b) as [[|c name]|]; try done.
  destruct (test true (filename_regex (c :: name)) (t0 ++ x)); [|done].
  cbn [negb]. apply replace_first_keeps_head; [|done].
  apply filename_regex_fence.
Qed.

(** X10.  The text in front of the first fence is never touched: when
    the previous text begins with a text that holds no fence and ends in
    no backtick, the merged text begins with that same text, whatever
    the output of the model is, in both variants. *)
Theorem head_of_text_kept (t0 rest fullOutput : text) :
  closable t0 = true →
  (∃ tail, ByLanguage.output (ByLanguage.merge (t0 ++ rest) fullOutput)
           = t0 ++ tail)
  ∧ (∃ tail, ByFilename.output (ByFilename.merge (t0 ++ rest) fullOutput)
             = t0 ++ tail).
Proof.
  intros Ht0. split.
  - unfold ByLanguage.merge. cbn [ByLanguage.output].
    destruct (bylang_loop_keeps_head t0
                (ByLanguage.extractCodeBlocks (JString fullOutput))
                {| ByLanguage.merged := t0 ++ rest;
                   ByLanguage.replacedLangs := ∅ |} Ht0) as [x Hx].
    { by exists rest. }
    rewrite Hx. destruct (0 <? _); [by exists x|].
    rewrite <- app_assoc. by eexists.
  - unfold ByFilename.merge. cbn [ByFilename.output].
    destruct (byfile_loop_keeps_head t0
                (ByFilename.extractCodeBlocks (JString fullOutput))
                (t0 ++ rest) Ht0) as [x Hx].
    { by exists rest. }
    rewrite Hx. destruct (_ =? 0); [|by exists x].
    rewrite <- app_assoc. by eexists.
Qed.

Lemma head_of_text_kept_witness :
  ∃ tail,
    ByFilename.output
      (ByFilename.merge
         (js "# My app\n\n" ++ js "```css\nb{}\n```\n```js\n// file: a.js\nold();\n```")
         (js "```js\n// file: a.js\nnew();\n```"))
    = js "# My app\n\n" ++ tail.
Proof.
  exact (proj2 (head_of_text_kept (js "# My app\n\n")
                  (js "```css\nb{}\n```\n```js\n// file: a.js\nold();\n```")
                  (js "```js\n// file: a.js\nnew();\n```") eq_refl)).
Defined.

(** * Further properties of the filename *)






(** * Further properties of the consumed languages *)

(** X12.  A block whose language names a property that every object
    inherits ([constructor], [__proto__], ...) finds its language
    consumed in every state: it is appended and never put in place of
    a block.  Of these names the extractor can deliver two,
    [constructor] and [__proto__], the others hold a capital letter. *)
Theorem inherited_names_appended (st : ByLanguage.merge_state)
    (blk : ByLanguage.CodeBlock) (doc : text) :
  (ByLanguage.lang blk ∈ object_prototype_keys →
   ByLanguage.replaces st blk = false
   ∧ ByLanguage.merge_step st blk = ByLanguage.append_block st blk)
  ∧ (blk ∈ ByLanguage.extractCodeBlocks (JString doc) →
     (ByLanguage.lang blk ∈ object_prototype_keys
      ↔ ByLanguage.lang blk = list_ascii_of_string "constructor"
        ∨ ByLanguage.lang blk = proto_key)).
Proof.
  split.
  - intros H. apply step_consumed. unfold get_truthy.
    apply orb_true_iff. right. by apply bool_decide_eq_true.
  - intros Hb. apply bylang_block_inv in Hb as (w & Hlang & _ & Hword & _).
    destruct (toLowerCase_word w Hword) as [_ Hidem].
    rewrite <- Hlang in Hidem. split.
    + intros H. apply list_elem_of_In in H. simpl in H.
      repeat (destruct H as [H|H];
              [try (left; by symmetry); try (right; by symmetry);
               rewrite <- H in Hidem; by vm_compute in Hidem|]).
      done.
    + intros [->| ->]; apply list_elem_of_In; simpl; tauto.
Qed.

Lemma inherited_names_appended_witness :
  let st := {| ByLanguage.merged := js "```constructor\nold\n```";
               ByLanguage.replacedLangs := ∅ |} in
  let blk := {| ByLanguage.lang := js "constructor";
                ByLanguage.code := js "new\n";
                ByLanguage.fullBlock := js "```constructor\nnew\n```" |} in
  ByLanguage.lang blk ∈ object_prototype_keys
  ∧ blk ∈ ByLanguage.extractCodeBlocks (JString (js "```constructor\nnew\n```"))
  ∧ ByLanguage.merge_step st blk = ByLanguage.append_block st blk
  ∧ ByLanguage.merged (ByLanguage.merge_step st blk)
    = js "```constructor\nold\n```\n\n```constructor\nnew\n\n```".
Proof.
  intros st blk.
  assert (H1 : ByLanguage.lang blk ∈ object_prototype_keys).
  { apply list_elem_of_In. simpl. tauto. }
  assert (H2 : blk ∈ ByLanguage.extractCodeBlocks
                       (JString (js "```constructor\nnew\n```"))).
  { vm_compute. apply list_elem_of_here. }
  destruct (inherited_names_appended st blk (js "```constructor\nnew\n```"))
    as [Ha Hb].
  destruct (Ha H1) as [_ Hstep].
  split; [exact H1|]. split; [exact H2|]. split; [exact Hstep|].
  rewrite Hstep. reflexivity.
Defined.

(** * A previous text without blocks *)

Lemma has_fence_sep (a b : text) (c : ascii) :
  has_fence a = false → has_fence b = false → c ≠ backtick →
  has_fence (a ++ c :: b) = false.
Proof.
  intros Ha Hb Hc.
  assert (ascii_eqb backtick c = false) as Hc'.
  { apply ascii_eqb_neq. by intros <-. }
  induction a as [|x a IH].
  - cbn [app has_fence]. rewrite Hb, orb_false_r. simpl. by rewrite Hc'.
  - cbn [app has_fence] in *. apply orb_false_iff in Ha as [H1 H2].
    apply orb_false_iff. split; [|by apply IH].
    destruct a as [|y [|z a]]; simpl in *.
    + by rewrite Hc', andb_false_r.
    + by rewrite Hc', !andb_false_r.
    + done.
Qed.

Lemma word_not_backtick_char (c : ascii) : is_word c = true → c ≠ backtick.
Proof. by intros H ->. Qed.

Lemma word_no_fence (w : text) :
  Forall (λ c, is_word c = true) w → has_fence w = false.
Proof.
  induction 1 as [|c w Hc _ IH]; [done|].
  apply (has_fence_sep [] w c); [done|done|by apply word_not_backtick_char].
Qed.

(** The inside of what the merger writes, with the last two backticks
    of the opening fence in front, lets no fence begin. *)
Lemma written_inside_closable (l body : text) :
  l ≠ [] → Forall (λ c, is_word c = true) l → closable body = true →
  closable ([backtick; backtick] ++ l ++ [nl] ++ body ++ [nl]) = true.
Proof.
  intros Hl Hword Hbody.
  replace ([backtick; backtick] ++ l ++ [nl] ++ body ++ [nl])
    with (([backtick; backtick] ++ l ++ [nl] ++ body) ++ [nl])
    by (by rewrite <- !app_assoc).
  unfold closable, fence_free in *.
  apply andb_true_iff in Hbody as [Hbody _]. apply negb_true_iff in Hbody.
  apply andb_true_iff. split; apply negb_true_iff.
  - apply has_fence_snoc; [|done].
    replace ([backtick; backtick] ++ l ++ [nl] ++ body)
      with (([backtick; backtick] ++ l) ++ nl :: body)
      by (by rewrite <- !app_assoc).
    apply has_fence_sep; [|done|done].
    destruct l as [|c l]; [done|]. apply Forall_cons in Hword as [Hc Hword].
    apply (has_fence_sep [backtick; backtick] l c); [done| |].
    + by apply word_no_fence.
    + by apply word_not_backtick_char.
  - unfold ends_with_backtick. by rewrite rev_app_distr.
Qed.

Lemma no_opening_in_app (l x y r : text) :
  no_opening_in l (x ++ y) r
  = no_opening_in l x (y ++ r) && no_opening_in l y r.
Proof.
  induction x as [|c x IH]; [done|].
  cbn [app no_opening_in]. rewrite IH, <- !app_assoc. cbn [app].
  by rewrite andb_assoc.
Qed.

Lemma no_opening_in_closable (l t r : text) :
  (∀ a b, t = a ++ b → b ≠ [] → starts_with fence (b ++ r) = false) →
  no_opening_in l t r = true.
Proof.
  induction t as [|c t IH]; intros H; [done|].
  cbn [no_opening_in]. apply andb_true_iff. split.
  - apply negb_true_iff. unfold opens_at.
    rewrite (match_chars_app true fence).
    by rewrite (match_chars_fence_none true _ (H [] (c :: t) eq_refl
                                                 ltac:(done))).
  - apply IH. intros a b -> Hb. by apply (H (c :: a) b).
Qed.

Lemma word_not_nl (p : ascii) :
  is_word p = true →
  char_matches true p nl = false ∧ char_matches true nl p = false.
Proof. destruct p as [[] [] [] [] [] [] [] []]; vm_compute; by split. Qed.

Lemma lower_word_canonical (c : ascii) :
  is_word c = true → lower_char c = c → lower_char (canonicalize c) = c.
Proof.
  destruct c as [[] [] [] [] [] [] [] []]; vm_compute; congruence.
Qed.

Lemma lower_word_match (p c : ascii) :
  is_word p = true → lower_char p = p →
  is_word c = true → lower_char c = c →
  char_matches true p c = true → p = c.
Proof.
  intros Hp Hlp Hc Hlc H. apply ascii_eqb_eq in H.
  by rewrite <- (lower_word_canonical p Hp Hlp), H,
    (lower_word_canonical c Hc Hlc).
Qed.

(** Two languages in lower case that differ do not fit the same opening
    fence line. *)
Lemma other_language_line (l lb z : text) :
  Forall (λ c, is_word c = true ∧ lower_char c = c) l →
  Forall (λ c, is_word c = true ∧ lower_char c = c) lb →
  l ≠ lb →
  match_chars true (l ++ [nl]) (lb ++ nl :: z) = None.
Proof.
  intros Hl. revert lb. induction Hl as [|p l [Hp Hlp] _ IH];
    intros lb Hlb Hne.
  - destruct Hlb as [|c lb [Hc _] _]; [done|].
    cbn [app match_chars]. by rewrite (proj2 (word_not_nl c Hc)).
  - destruct Hlb as [|c lb [Hc Hlc] Hlb].
    + cbn [app match_chars]. by rewrite (proj1 (word_not_nl p Hp)).
    + cbn [app match_chars].
      destruct (char_matches true p c) eqn:Hm; [|done].
      apply (lower_word_match p c Hp Hlp Hc Hlc) in Hm as <-.
      rewrite IH; [done|done|]. by intros ->.
Qed.

(** What the merger appends for a block of another language holds no
    opening fence line of the language. *)
Lemma no_opening_in_appended (l lb body ext : text) :
  l ≠ [] →
  Forall (λ c, is_word c = true ∧ lower_char c = c) l →
  lb ≠ [] →
  Forall (λ c, is_word c = true ∧ lower_char c = c) lb →
  l ≠ lb → closable body = true →
  no_opening_in l
    (blank_line ++ fence ++ lb ++ [nl] ++ body ++ [nl] ++ fence)
    (nl :: ext) = true.
Proof.
  intros Hl Hlw Hlb Hlbw Hne Hbody.
  assert (Forall (λ c, is_word c = true) lb) as Hlbw'
    by (eapply Forall_impl; [exact Hlbw|]; by intros ? [? _]).
  replace (blank_line ++ fence ++ lb ++ [nl] ++ body ++ [nl] ++ fence)
    with ([nl; nl; backtick]
            ++ ([backtick; backtick] ++ lb ++ [nl] ++ body ++ [nl])
            ++ fence)
    by (unfold blank_line, fence; cbn [app];
        by repeat (rewrite <- app_assoc; cbn [app])).
  rewrite (no_opening_in_app l [nl; nl; backtick]).
  rewrite (no_opening_in_app l _ fence).
  apply andb_true_iff; split; [|apply andb_true_iff; split].
  - cbn [no_opening_in app]. repeat (apply andb_true_iff; split); try done.
    apply negb_true_iff. unfold opens_at.
    match goal with
    | |- context [match_chars true _ (backtick :: backtick :: backtick :: ?x)]
      => change (backtick :: backtick :: backtick :: x) with (fence ++ x)
    end.
    rewrite (match_chars_app true fence), match_chars_fence_app.
    repeat (rewrite <- app_assoc; cbn [app]).
    by rewrite other_language_line.
  - apply no_opening_in_closable. intros a b Hab Hb.
    apply (closable_no_fence_start a b); [|done].
    rewrite <- Hab. by apply written_inside_closable.
  - destruct l as [|p l]; [done|]. apply Forall_cons in Hlw as [[Hp _] _].
    unfold fence. cbn [no_opening_in app].
    repeat (apply andb_true_iff; split); try done.
    apply negb_true_iff. unfold opens_at.
    change ([backtick; backtick; backtick] ++ (p :: l) ++ [nl])
      with (fence ++ (p :: l) ++ [nl]).
    change (backtick :: backtick :: backtick :: nl :: ext)
      with (fence ++ nl :: ext).
    rewrite (match_chars_app true fence), match_chars_fence_app.
    cbn [app match_chars]. by rewrite (proj1 (word_not_nl p Hp)).
Qed.

Lemma lang_search_none (l acc x : text) :
  (∀ a b, acc = a ++ b → b ≠ [] → opens_at l (b ++ x) = false) →
  search true (lang_regex l) acc = None.
Proof.
  intros H. destruct (search true (lang_regex l) acc) as [mr|] eqn:Hs;
    [|done].
  apply search_split in Hs as [Hacc Hm].
  apply lang_regex_shape in Hm as (w & body & Hall & Hw & _).
  specialize (H (m_pre mr) (m_all mr ++ m_post mr) Hacc).
  rewrite Hall in H.
  assert (opens_at l (((fence ++ w ++ [nl] ++ body ++ fence) ++ m_post mr)
                        ++ x) = true) as Ho.
  { unfold opens_at. rewrite <- !app_assoc.
    rewrite (match_chars_app true fence), match_chars_fence_app.
    rewrite (match_chars_app true l), (match_chars_complete true l w _ Hw).
    cbn [app]. by rewrite match_chars_nl_app. }
  rewrite H in Ho; [done|]. intros Hnil.
  by apply app_eq_nil in Hnil as [Hnil _].
Qed.

Lemma bylang_block_good (doc : text) (b : ByLanguage.CodeBlock) :
  b ∈ ByLanguage.extractCodeBlocks (JString doc) →
  ByLanguage.lang b ≠ []
  ∧ Forall (λ c, is_word c = true ∧ lower_char c = c) (ByLanguage.lang b)
  ∧ closable (ByLanguage.code b) = true.
Proof.
  intros Hb. apply bylang_block_inv in Hb as (w & -> & Hw & Hword & Hbody).
  split; [by destruct w|]. split; [|done]. clear Hw.
  induction Hword as [|c w Hc _ IH]; [constructor|].
  destruct (lower_char_word c Hc) as [H1 H2].
  change (toLowerCase (c :: w)) with (lower_char c :: toLowerCase w).
  by constructor.
Qed.

Lemma no_opening_in_written (l : text) (done : list ByLanguage.CodeBlock)
    (ext : text) :
  l ≠ [] → Forall (λ c, is_word c = true ∧ lower_char c = c) l →
  Forall (λ b, ByLanguage.lang b ≠ []
             ∧ Forall (λ c, is_word c = true ∧ lower_char c = c)
                 (ByLanguage.lang b)
             ∧ closable (ByLanguage.code b) = true) done →
  (∀ b, b ∈ done → ByLanguage.lang b ≠ l) →
  no_opening_in l
    (concat (map (λ b, blank_line ++ ByLanguage.newFullBlock b) done))
    (nl :: ext) = true.
Proof.
  intros Hl Hword Hgood. revert ext.
  induction Hgood as [|b done (Hb1 & Hb2 & Hb3) _ IH]; intros ext Hother.
  { done. }
  cbn [map concat]. rewrite no_opening_in_app. apply andb_true_iff. split.
  - assert (∃ ext', concat (map (λ b, blank_line ++ ByLanguage.newFullBlock b)
                              done) ++ nl :: ext = nl :: ext') as [ext' ->].
    { destruct done; cbn [map concat]; [by eexists|].
      unfold blank_line. cbn [app]. by eexists. }
    unfold ByLanguage.newFullBlock.
    apply no_opening_in_appended; try done.
    intros ->. by apply (Hother b); [left|].
  - apply IH. intros b' Hb'. apply Hother. by right.
Qed.

Lemma prose_loop (prev : text) (todo done : list ByLanguage.CodeBlock)
    (st : ByLanguage.merge_state) :
  closable prev = true →
  Forall (λ b, ByLanguage.lang b ≠ []
             ∧ Forall (λ c, is_word c = true ∧ lower_char c = c)
                 (ByLanguage.lang b)
             ∧ closable (ByLanguage.code b) = true) (done ++ todo) →
  ByLanguage.merged st
  = prev ++ concat (map (λ b, blank_line ++ ByLanguage.newFullBlock b) done) →
  (∀ l, get_truthy (ByLanguage.replacedLangs st) l = false →
        ∀ b, b ∈ done → ByLanguage.lang b ≠ l) →
  ByLanguage.merged (ByLanguage.merge_loop st todo)
  = prev ++ concat (map (λ b, blank_line ++ ByLanguage.newFullBlock b)
                      (done ++ todo))
  ∧ ByLanguage.turns st todo = map (λ _, false) todo.
Proof.
  intros Hprev. revert done st.
  induction todo as [|b todo IH]; intros done st Hgood Hacc Hkeys.
  { by rewrite app_nil_r. }
  assert (ByLanguage.replaces st b = false) as Hno.
  { destruct (get_truthy (ByLanguage.replacedLangs st) (ByLanguage.lang b))
      eqn:Hk.
    { by apply step_consumed. }
    unfold ByLanguage.replaces. rewrite Hk. cbn [negb andb].
    rewrite replace_by_lang_missing; [done|].
    apply (lang_search_none _ _ [nl]). intros a s Hsplit Hs.
    apply (no_opening_in_suffix _ a); [|done]. rewrite <- Hsplit, Hacc.
    apply Forall_app in Hgood as [Hdone Htodo].
    apply Forall_cons in Htodo as [(Hb1 & Hb2 & _) _].
    rewrite no_opening_in_app. apply andb_true_iff. split.
    - apply no_opening_in_closable. intros a' s' -> Hs'.
      by apply (closable_no_fence_start a').
    - apply no_opening_in_written; try done. by apply Hkeys. }
  cbn [ByLanguage.merge_loop fold_left ByLanguage.turns map].
  rewrite Hno, step_cases, Hno.
  destruct (IH (done ++ [b]) (ByLanguage.append_block st b)) as [H1 H2].
  - by rewrite <- app_assoc.
  - cbn [ByLanguage.append_block ByLanguage.merged]. rewrite Hacc.
    rewrite map_app, concat_app. cbn [map concat]. rewrite app_nil_r.
    by rewrite <- app_assoc.
  - cbn [ByLanguage.append_block ByLanguage.replacedLangs].
    intros l Hl b' Hb'. apply elem_of_app in Hb' as [Hb'|Hb'].
    + apply (Hkeys l); [|done].
      destruct (get_truthy (ByLanguage.replacedLangs st) l) eqn:Hk; [|done].
      by rewrite (get_truthy_keeps _ _ _ Hk) in Hl.
    + apply list_elem_of_singleton in Hb' as ->. intros <-.
      by rewrite get_truthy_set_true in Hl.
  - unfold ByLanguage.merge_loop in H1. rewrite <- app_assoc in H1.
    split; [exact H1|]. by rewrite H2.
Qed.

(** X13.  A previous text that holds no fence and ends in no backtick,
    the empty text of a new project among them, has nothing to replace:
    the by-language loop takes the appending branch at every turn, so
    the merged text is the previous text followed, for every block of
    the output in order, by a blank line and the rewritten block, also
    when two blocks name the same language; an output without a block
    is appended whole after a blank line. *)
Theorem prose_only_all_appended (previousCode fullOutput : text) :
  closable previousCode = true →
  let aiBlocks := ByLanguage.extractCodeBlocks (JString fullOutput) in
  ByLanguage.output (ByLanguage.merge previousCode fullOutput)
  = previousCode
    ++ match aiBlocks with
       | [] => blank_line ++ fullOutput
       | _ :: _ =>
           concat (map (λ b, blank_line ++ ByLanguage.newFullBlock b) aiBlocks)
       end
  ∧ ByLanguage.turns {| ByLanguage.merged := previousCode;
                        ByLanguage.replacedLangs := ∅ |} aiBlocks
    = map (λ _, false) aiBlocks.
Proof.
  intros Hprev aiBlocks.
  destruct (prose_loop previousCode aiBlocks []
              {| ByLanguage.merged := previousCode;
                 ByLanguage.replacedLangs := ∅ |} Hprev) as [H1 H2].
  - cbn [app]. apply Forall_forall. intros b Hb.
    by apply (bylang_block_good fullOutput).
  - cbn [ByLanguage.merged map concat]. by rewrite app_nil_r.
  - intros l _ b Hb. by apply elem_of_nil in Hb.
  - split; [|exact H2]. unfold ByLanguage.merge. cbn [ByLanguage.output].
    fold aiBlocks. rewrite H1. cbn [app].
    destruct aiBlocks as [|b bs]; [|done].
    cbn [length Nat.ltb Nat.leb map concat]. by rewrite app_nil_r.
Qed.

Lemma prose_only_all_appended_witness :
  ByLanguage.output
    (ByLanguage.merge (js "# My app")
       (js "```js\na();\n```\nand\n```js\nb();\n```"))
  = js "# My app\n\n```js\na();\n\n```\n\n```js\nb();\n\n```".
Proof.
  exact (proj1 (prose_only_all_appended (js "# My app")
                  (js "```js\na();\n```\nand\n```js\nb();\n```") eq_refl)).
Defined.
